(** * The tierkreis runtime client: a shallow embedding

    Model of [tierkreis/frontend/runtime_client.py]: the signature
    registry ([signature_from_proto]), the task lifecycle and type-check
    client ([RuntimeClient]), the blocking bridge ([async_to_sync],
    [run_graph_block]) and the worker callback authenticator
    ([with_runtime_client]).

    Python dictionaries whose iteration order matters to the code are
    association lists in iteration order; dictionaries that are only
    looked up are [gmap]s.  Exceptions are an error type, the mutable
    state reachable from the code (stub caches, channel listeners, the
    network) is threaded explicitly. *)

From Stdlib Require Import Ascii String ZArith.
From Stdlib Require DecimalString DecimalPos DecimalZ.
From stdpp Require Import base option list gmap strings fin_maps.

Local Open Scope Z_scope.

(** ** Python strings: [str.split] with one-character separator *)

(** [s.split(sep, maxsplit)]: at most [maxsplit] cuts, counted from the
    left; what follows the last cut is kept whole. *)
Fixpoint str_split (sep : ascii) (maxsplit : nat) (s : string) : list string :=
  match s with
  | EmptyString => [EmptyString]
  | String c rest =>
      if Ascii.eqb c sep then
        match maxsplit with
        | O => [s]
        | S m => EmptyString :: str_split sep m rest
        end
      else
        match str_split sep maxsplit rest with
        | [] => [String c EmptyString]
        | hd :: tl => String c hd :: tl
        end
  end.

(** Number of occurrences of [sep] in [s]. *)
Fixpoint str_count (sep : ascii) (s : string) : nat :=
  match s with
  | EmptyString => O
  | String c rest => ((if Ascii.eqb c sep then 1 else 0) + str_count sep rest)%nat
  end.

Definition slash : ascii := "/"%char.

(** ** Collaborators

    What the client uses from other modules of the package
    ([tierkreis.core], [tierkreis.worker]) and from the protobuf layer.
    The client treats their values as opaque, so they are the fields of
    an interface. *)
Class Collaborators : Type := {
  PyObj : Type;               (* [Any]: a native value *)
  TierkreisValue : Type;
  TierkreisGraph : Type;
  GraphProto : Type;          (* [pg.Graph] *)
  ValueProto : Type;          (* [pg.Value] *)
  TypeErrorsProto : Type;     (* [ps.TypeErrors] *)
  TypeErrors : Type;          (* what [TierkreisTypeErrors] carries *)
  FunctionProto : Type;       (* [ps.FunctionDeclaration] *)
  TypeSchemeProto : Type;     (* [pg.TypeScheme] *)
  TierkreisFunction : Type;
  TypeScheme : Type;
  (* [TierkreisValue.from_python]; [None]: it raises [IncompatiblePyType] *)
  from_python : PyObj → option TierkreisValue;
  (* [TierkreisGraph.to_proto] *)
  graph_to_proto : TierkreisGraph → GraphProto;
  (* [StructValue(d).to_proto_dict()] *)
  to_proto_dict : gmap string TierkreisValue → gmap string ValueProto;
  (* [StructValue.from_proto_dict(m).values]; [None]: decoding raises *)
  from_proto_dict : gmap string ValueProto → option (gmap string TierkreisValue);
  (* [TierkreisTypeErrors.from_proto] *)
  type_errors_from_proto : TypeErrorsProto → TypeErrors;
  (* [ps.TypeErrors()], the default of an unset message field *)
  no_type_errors : TypeErrorsProto;
  (* [TierkreisTypeErrors.from_proto(None)]; [None]: the call itself raises *)
  type_errors_from_none : option TypeErrors;
  (* [TierkreisValue.from_python(graph).to_proto()]; [None]: it raises *)
  graph_to_value_proto : TierkreisGraph → option ValueProto;
  (* whether the [graph] field of a [pg.Value] is [None] *)
  graph_is_none : ValueProto → bool;
  (* [TierkreisValue.from_proto(v).to_python(TierkreisGraph)]; [None]: it
     raises *)
  graph_from_value_proto : ValueProto → option TierkreisGraph;
  (* [TierkreisFunction.from_proto], [TypeScheme.from_proto] *)
  function_from_proto : FunctionProto → TierkreisFunction;
  scheme_from_proto : TypeSchemeProto → TypeScheme;
  (* [str()] of the [map] field of a [pg.StructValue] *)
  map_str : gmap string ValueProto → string;
  (* [tierkreis.worker.worker._KEYRING_SERVICE] *)
  _KEYRING_SERVICE : string;
  (* whether two non-empty strings of this content are one object *)
  interned : string → bool
}.

Section Client.

Context {collab : Collaborators}.

(** ** Exceptions and results *)

(** The exceptions the client raises or lets through. *)
Inductive exn : Type :=
  | InputConversionError (input_name : string) (value : PyObj)
  | TierkreisTypeErrors (errors : TypeErrors)
  | RuntimeError (msg : string)
  | ValueError (msg : string)
  | AssertionError
  | KeyError (key : string)
  | AttributeError (attr : string)
  | ForeignError (what : string).   (* raised by a collaborator: transport, decoding *)

Inductive Result (A : Type) : Type :=
  | Ok (a : A)
  | Err (e : exn).
Global Arguments Ok {A} a.
Global Arguments Err {A} e.

Definition res_bind {A B} (r : Result A) (k : A → Result B) : Result B :=
  match r with
  | Ok a => k a
  | Err e => Err e
  end.

(** ** Signature registry *)

Record NamespaceDefs : Type := mkNamespaceDefs {
  functions : gmap string TierkreisFunction;
  aliases : gmap string TypeScheme
}.

(** [ps.ListFunctionsResponse]: two maps, each listed in the order
    [.items()] yields its entries. *)
Record ListFunctionsResponse : Type := mkListFunctionsResponse {
  pr_functions : list (string * FunctionProto);
  pr_aliases : list (string * TypeSchemeProto)
}.

(** [namespace, fname = name.split("/", 2)]: the two-target assignment
    raises [ValueError] unless the split has exactly two parts. *)
Definition unpack2 (parts : list string) : Result (string * string) :=
  match parts with
  | [a; b] => Ok (a, b)
  | [] => Err (ValueError "not enough values to unpack (expected 2, got 0)")
  | [_] => Err (ValueError "not enough values to unpack (expected 2, got 1)")
  | _ => Err (ValueError "too many values to unpack (expected 2)")
  end.

Definition split_name (name : string) : Result (string * string) :=
  unpack2 (str_split slash 2 name).

(** Body of the first loop of [signature_from_proto]. *)
Definition add_function (namespaces : gmap string NamespaceDefs)
    (item : string * FunctionProto) : Result (gmap string NamespaceDefs) :=
  res_bind (split_name item.1) (λ '(namespace, fname),
    let func := function_from_proto item.2 in
    match namespaces !! namespace with
    | Some defs =>
        Ok (<[namespace := mkNamespaceDefs (<[fname := func]> (functions defs))
                                           (aliases defs)]> namespaces)
    | None =>
        Ok (<[namespace := mkNamespaceDefs {[fname := func]} ∅]> namespaces)
    end).

(** Body of the second loop. *)
Definition add_alias (namespaces : gmap string NamespaceDefs)
    (item : string * TypeSchemeProto) : Result (gmap string NamespaceDefs) :=
  res_bind (split_name item.1) (λ '(namespace, alias_name),
    let type_ := scheme_from_proto item.2 in
    match namespaces !! namespace with
    | Some defs =>
        Ok (<[namespace := mkNamespaceDefs (functions defs)
                                           (<[alias_name := type_]> (aliases defs))]>
              namespaces)
    | None =>
        Ok (<[namespace := mkNamespaceDefs ∅ {[alias_name := type_]}]> namespaces)
    end).

(** A [for] loop whose body may raise: the first exception ends it. *)
Fixpoint for_each {S X} (body : S → X → Result S) (items : list X) (s : S)
    : Result S :=
  match items with
  | [] => Ok s
  | x :: rest => res_bind (body s x) (for_each body rest)
  end.

Definition signature_from_proto (pr_sig : ListFunctionsResponse)
    : Result (gmap string NamespaceDefs) :=
  res_bind (for_each add_function (pr_functions pr_sig) ∅)
           (for_each add_alias (pr_aliases pr_sig)).

(** ** Wire messages of the runtime service

    A protobuf [oneof] group is a closed variant; the case where no
    field of the group is set is a variant of its own. *)

(** [pg.StructValue]: one field, [map]. *)
Record StructValueProto : Type := mkStructValueProto {
  sv_map : gmap string ValueProto
}.

(** [pr.Task]: [id] and the group [status] = success | error. *)
Inductive TaskStatus : Type :=
  | StatusUnset
  | StatusSuccess (success : StructValueProto)
  | StatusError (error : string).

Record Task : Type := mkTask {
  id : string;
  status : TaskStatus
}.

(** [pr.RunTaskResponse]: the group [result] = task_id | type_errors. *)
Inductive RunTaskResponse : Type :=
  | ResultUnset
  | ResultTaskId (task_id : string)
  | ResultTypeErrors (type_errors : TypeErrorsProto).

Record ListTasksResponse : Type := mkListTasksResponse {
  tasks : list Task
}.

Record AwaitTaskResponse : Type := mkAwaitTaskResponse {
  task : Task
}.

(** [ps.InferTypeSuccess], as far as the client reads it: the field
    [value]. *)
Record InferTypeSuccess : Type := mkInferTypeSuccess {
  its_value : ValueProto
}.

(** [ps.InferTypeResponse]: the group [response] = success | error. *)
Inductive InferTypeResponse : Type :=
  | ResponseUnset
  | ResponseSuccess (success : InferTypeSuccess)
  | ResponseError (error : TypeErrorsProto).

(** The field values [which_one_of] and attribute access hand back. *)
Inductive FieldValue : Type :=
  | FNone
  | FStr (s : string)
  | FStruct (v : StructValueProto)
  | FTypeErrors (e : TypeErrorsProto).

(** [betterproto.which_one_of(message, group)]: the name of the field
    that is set and its value, or [("", None)] when none is. *)
Definition which_one_of_status (t : Task) : string * FieldValue :=
  match status t with
  | StatusUnset => ("", FNone)
  | StatusSuccess v => ("success", FStruct v)
  | StatusError e => ("error", FStr e)
  end.

Definition which_one_of_result (d : RunTaskResponse) : string * FieldValue :=
  match d with
  | ResultUnset => ("", FNone)
  | ResultTaskId s => ("task_id", FStr s)
  | ResultTypeErrors e => ("type_errors", FTypeErrors e)
  end.

(** The message [which_one_of] hands back for the group [response].
    The client compares the name with ["success"] only. *)
Inductive ResponseMessage : Type :=
  | MNone
  | MSuccess (success : InferTypeSuccess)
  | MErrors (errors : TypeErrorsProto).

Definition which_one_of_response (r : InferTypeResponse)
    : string * ResponseMessage :=
  match r with
  | ResponseUnset => ("", MNone)
  | ResponseSuccess s => ("success", MSuccess s)
  | ResponseError e => ("error", MErrors e)
  end.

(** Reading a field of the group that is not the one set gives the
    field's default. *)
Definition get_task_id (d : RunTaskResponse) : string :=
  match d with
  | ResultTaskId s => s
  | _ => ""
  end.

Definition get_type_errors (d : RunTaskResponse) : TypeErrorsProto :=
  match d with
  | ResultTypeErrors e => e
  | _ => no_type_errors
  end.

(** ** The world the client runs in

    Channels, stubs and clients are Python objects: each carries the
    identity it was allocated with.  The world holds every piece of
    state the code can read or change. *)

Record Channel : Type := mkChannel {
  chan_id : nat;
  _host : string;
  _port : Z
}.

(** Request metadata ([event.metadata]) and a [SendRequest] listener,
    which edits it before the request leaves. *)
Definition Hook : Type := gmap string string → gmap string string.

Inductive StubClass : Type :=
  | SignatureStub
  | RuntimeStub
  | TypeInferenceStub.

Record Stub : Type := mkStub {
  stub_id : nat;
  stub_class : StubClass;
  stub_channel : Channel
}.

Inductive Request : Type :=
  | ReqListFunctions
  | ReqRunTask (graph : GraphProto) (inputs : StructValueProto)
  | ReqListTasks
  | ReqAwaitTask (id : string)
  | ReqDeleteTask (id : string)
  | ReqInferType (value : ValueProto).

(** What an observer of the transport sees. *)
Inductive Event : Type :=
  | ChannelOpened (ch : Channel)
  | RequestSent (ch : Channel) (metadata : gmap string string) (req : Request)
  | ChannelClosed (ch : Channel).

(** The remote runtime: its reply to the request that ends the given
    history.  A reply is a decoded message or a transport failure. *)
Record Server : Type := mkServer {
  reply_list_functions : list Event → Result ListFunctionsResponse;
  reply_run_task : list Event → Result RunTaskResponse;
  reply_list_tasks : list Event → Result ListTasksResponse;
  reply_await_task : list Event → Result AwaitTaskResponse;
  reply_delete_task : list Event → Result unit;
  reply_infer_type : list Event → Result InferTypeResponse
}.

Record World : Type := mkWorld {
  events : list Event;                        (* oldest first *)
  listeners : list (nat * Hook);              (* channel identity, callback *)
  client_stubs : gmap nat (gmap string Stub); (* [_stubs] of each client *)
  next_id : nat;                              (* next fresh identity *)
  keyring : gmap (string * string) string;    (* (service, username) *)
  server : Server
}.

Definition set_events (f : list Event → list Event) (w : World) : World :=
  mkWorld (f (events w)) (listeners w) (client_stubs w) (next_id w)
          (keyring w) (server w).
Definition set_listeners (f : list (nat * Hook) → list (nat * Hook)) (w : World)
    : World :=
  mkWorld (events w) (f (listeners w)) (client_stubs w) (next_id w)
          (keyring w) (server w).
Definition set_client_stubs
    (f : gmap nat (gmap string Stub) → gmap nat (gmap string Stub)) (w : World)
    : World :=
  mkWorld (events w) (listeners w) (f (client_stubs w)) (next_id w)
          (keyring w) (server w).
Definition set_next_id (f : nat → nat) (w : World) : World :=
  mkWorld (events w) (listeners w) (client_stubs w) (f (next_id w))
          (keyring w) (server w).

(** ** Computations: state and exceptions *)

Definition M (A : Type) : Type := World → Result A * World.

Definition ret {A} (a : A) : M A := λ w, (Ok a, w).
Definition raise {A} (e : exn) : M A := λ w, (Err e, w).
Definition bind {A B} (m : M A) (k : A → M B) : M B := λ w,
  match m w with
  | (Ok a, w') => k a w'
  | (Err e, w') => (Err e, w')
  end.
Definition lift {A} (r : Result A) : M A := λ w, (r, w).
Definition get_world : M World := λ w, (Ok w, w).
Definition modify (f : World → World) : M unit := λ w, (Ok tt, f w).

(** [try: m finally: cleanup]. *)
Definition finally {A} (m : M A) (cleanup : M unit) : M A := λ w,
  match m w with
  | (r, w') =>
      match cleanup w' with
      | (Ok _, w'') => (r, w'')
      | (Err e, w'') => (Err e, w'')
      end
  end.

Notation "x <- m ;; k" := (bind m (λ x, k))
  (at level 100, m at next level, right associativity).
Notation "m ;;; k" := (bind m (λ _, k))
  (at level 100, right associativity).

(** Fresh identity for a new object. *)
Definition fresh : M nat :=
  w <- get_world;;
  modify (set_next_id S);;;
  ret (next_id w).

(** ** The transport: channels, listeners, stub calls *)

(** [Channel(host, port)]. *)
Definition Channel_new (host : string) (port : Z) : M Channel :=
  i <- fresh;;
  let ch := mkChannel i host port in
  modify (set_events (λ evs, evs ++ [ChannelOpened ch]));;;
  ret ch.

Definition Channel_close (ch : Channel) : M unit :=
  modify (set_events (λ evs, evs ++ [ChannelClosed ch])).

(** [listen(channel, SendRequest, callback)]. *)
Definition listen (ch : Channel) (callback : Hook) : M unit :=
  modify (set_listeners (λ ls, ls ++ [(chan_id ch, callback)])).

(** The listeners registered on a channel, in registration order. *)
Definition hooks_of (ch : Channel) (w : World) : list Hook :=
  snd <$> filter (λ entry, entry.1 = chan_id ch) (listeners w).

(** Every request that leaves over a channel first passes through the
    channel's [SendRequest] listeners, which edit its metadata. *)
Definition send_request (ch : Channel) (req : Request) : M unit :=
  w <- get_world;;
  let metadata := foldl (λ md hook, hook md) ∅ (hooks_of ch w) in
  modify (set_events (λ evs, evs ++ [RequestSent ch metadata req])).

(** A unary call: send, then read the server's reply to the history. *)
Definition unary_call {A} (ch : Channel) (req : Request)
    (reply : Server → list Event → Result A) : M A :=
  send_request ch req;;;
  w <- get_world;;
  lift (reply (server w) (events w)).

Definition SignatureStub_list_functions (stub : Stub) : M ListFunctionsResponse :=
  unary_call (stub_channel stub) ReqListFunctions reply_list_functions.
Definition RuntimeStub_run_task (stub : Stub) (graph : GraphProto)
    (inputs : StructValueProto) : M RunTaskResponse :=
  unary_call (stub_channel stub) (ReqRunTask graph inputs) reply_run_task.
Definition RuntimeStub_list_tasks (stub : Stub) : M ListTasksResponse :=
  unary_call (stub_channel stub) ReqListTasks reply_list_tasks.
Definition RuntimeStub_await_task (stub : Stub) (id : string) : M AwaitTaskResponse :=
  unary_call (stub_channel stub) (ReqAwaitTask id) reply_await_task.
Definition RuntimeStub_delete_task (stub : Stub) (id : string) : M unit :=
  unary_call (stub_channel stub) (ReqDeleteTask id) reply_delete_task.
Definition TypeInferenceStub_infer_type (stub : Stub) (value : ValueProto)
    : M InferTypeResponse :=
  unary_call (stub_channel stub) (ReqInferType value) reply_infer_type.

(** [keyring.get_password(service, username)]. *)
Definition keyring_get_password (service username : string) : M (option string) :=
  w <- get_world;;
  ret (keyring w !! (service, username)).

(** ** A fragment of Python values, for [is] and [or] *)

Inductive PyVal : Type :=
  | PyNone
  | PyStr (s : string).

Definition py_truthy (v : PyVal) : bool :=
  match v with
  | PyNone => false
  | PyStr s => negb (String.eqb s "")
  end.

(** [a or b]: [a] if it is truthy, else [b]. *)
Definition py_or (a b : PyVal) : PyVal := if py_truthy a then a else b.

(** [a is b], object identity.  [None] is one object and so is the
    empty string; strings of different content are different objects;
    for non-empty strings of equal content it depends on interning. *)
Definition py_is (a b : PyVal) : bool :=
  match a, b with
  | PyNone, PyNone => true
  | PyStr x, PyStr y =>
      String.eqb x y && (String.eqb x "" || interned x)
  | _, _ => false
  end.

(** [str(value)] of a field value, as an f-string renders it. *)
Definition py_str (v : FieldValue) : string :=
  match v with
  | FNone => "None"
  | FStr s => s
  | FStruct m => "StructValue(map=" +:+ map_str (sv_map m) +:+ ")"
  | FTypeErrors _ => "TypeErrors(...)"
  end.

(** ** The client *)

Record TaskHandle : Type := mkTaskHandle {
  task_id : string
}.

Global Instance TaskHandle_eq_dec : EqDecision TaskHandle.
Proof. solve_decision. Defined.
Global Instance TaskHandle_countable : Countable TaskHandle :=
  inj_countable' task_id mkTaskHandle (λ h, match h with mkTaskHandle _ => eq_refl end).

Record RuntimeClient : Type := mkRuntimeClient {
  client_id : nat;
  _channel : Channel
}.

(** [self._stubs]. *)
Definition _stubs (self : RuntimeClient) (w : World) : gmap string Stub :=
  default ∅ (client_stubs w !! client_id self).

(** [RuntimeClient(channel)]. *)
Definition RuntimeClient_new (channel : Channel) : M RuntimeClient :=
  i <- fresh;;
  modify (set_client_stubs (<[i := ∅]>));;;
  ret (mkRuntimeClient i channel).

(** [stub_t(channel)]: a new stub object. *)
Definition Stub_new (stub_t : StubClass) (channel : Channel) : M Stub :=
  i <- fresh;;
  ret (mkStub i stub_t channel).

Definition isinstance (stub : Stub) (stub_t : StubClass) : bool :=
  match stub_class stub, stub_t with
  | SignatureStub, SignatureStub
  | RuntimeStub, RuntimeStub
  | TypeInferenceStub, TypeInferenceStub => true
  | _, _ => false
  end.

Definition _stub_gen (self : RuntimeClient) (key : string) (stub_t : StubClass)
    : M Stub :=
  w <- get_world;;
  (match _stubs self w !! key with
   | None =>
       stub <- Stub_new stub_t (_channel self);;
       modify (λ w, set_client_stubs
                      (<[client_id self := <[key := stub]> (_stubs self w)]>) w)
   | Some _ => ret tt
   end);;;
  w <- get_world;;
  match _stubs self w !! key with
  | None => raise (KeyError key)
  | Some stub =>
      if isinstance stub stub_t then ret stub else raise AssertionError
  end.

Definition _signature_stub (self : RuntimeClient) : M Stub :=
  _stub_gen self "signature" SignatureStub.
Definition _runtime_stub (self : RuntimeClient) : M Stub :=
  _stub_gen self "runtime" RuntimeStub.
Definition _type_stub (self : RuntimeClient) : M Stub :=
  _stub_gen self "type" TypeInferenceStub.

Definition get_signature (self : RuntimeClient)
    : M (gmap string NamespaceDefs) :=
  stub <- _signature_stub self;;
  pr_sig <- SignatureStub_list_functions stub;;
  lift (signature_from_proto pr_sig).

(** Body of the conversion loop of [start_task]. *)
Definition convert_input (inputs : gmap string TierkreisValue)
    (item : string * PyObj) : Result (gmap string TierkreisValue) :=
  match from_python item.2 with
  | Some v => Ok (<[item.1 := v]> inputs)
  | None => Err (InputConversionError item.1 item.2)
  end.

Definition start_task (self : RuntimeClient) (graph : TierkreisGraph)
    (py_inputs : list (string * PyObj)) : M TaskHandle :=
  inputs <- lift (for_each convert_input py_inputs ∅);;
  stub <- _runtime_stub self;;
  decoded <- RuntimeStub_run_task stub (graph_to_proto graph)
               (mkStructValueProto (to_proto_dict inputs));;
  let '(name, _) := which_one_of_result decoded in
  if String.eqb name "task_id" then ret (mkTaskHandle (get_task_id decoded))
  else raise (TierkreisTypeErrors (type_errors_from_proto (get_type_errors decoded))).

(** Body of the loop of [list_tasks]. *)
Definition record_status (result : gmap TaskHandle string) (task : Task)
    : gmap TaskHandle string :=
  let '(status_name, _) := which_one_of_status task in
  let status_name :=
    if py_is (PyStr status_name) (py_or PyNone (PyStr "")) then "running"
    else status_name in
  <[mkTaskHandle (id task) := status_name]> result.

Definition list_tasks (self : RuntimeClient) : M (gmap TaskHandle string) :=
  stub <- _runtime_stub self;;
  decoded <- RuntimeStub_list_tasks stub;;
  ret (foldl record_status ∅ (tasks decoded)).

Definition newline : string := String (ascii_of_nat 10) EmptyString.

Definition await_task (self : RuntimeClient) (task_ : TaskHandle)
    : M (gmap string TierkreisValue) :=
  stub <- _runtime_stub self;;
  decoded <- RuntimeStub_await_task stub (task_id task_);;
  let '(status_, status_value) := which_one_of_status (task decoded) in
  if negb (String.eqb status_ "success") then
    raise (RuntimeError ("Task execution failed with message:" +:+ newline
                           +:+ py_str status_value))
  else
    match status_value with
    | FNone => raise AssertionError
    | FStruct v =>
        match from_proto_dict (sv_map v) with
        | Some values => ret values
        | None => raise (ForeignError "from_proto_dict")
        end
    | _ => raise (AttributeError "map")
    end.

Definition delete_task (self : RuntimeClient) (task_ : TaskHandle) : M unit :=
  stub <- _runtime_stub self;;
  RuntimeStub_delete_task stub (task_id task_).

Definition run_graph (self : RuntimeClient) (graph : TierkreisGraph)
    (py_inputs : list (string * PyObj)) : M (gmap string TierkreisValue) :=
  task_ <- start_task self graph py_inputs;;
  outputs <- await_task self task_;;
  ret outputs.

(** [async_to_sync(func)]: the call runs [func] to completion on a
    worker thread with an event loop of its own while the caller blocks
    on [future.result()], which hands back what [func] returned or
    raises what it raised.  In a world with one line of control that is
    [func] itself. *)
Definition async_to_sync {X A} (func : X → M A) : X → M A :=
  λ args, func args.

(** [RuntimeClient.run_graph_block]. *)
Definition run_graph_block (self : RuntimeClient) (graph : TierkreisGraph)
    (py_inputs : list (string * PyObj)) : M (gmap string TierkreisValue) :=
  let _run : string * Z → M (gmap string TierkreisValue) := λ '(host, port),
    channel <- Channel_new host port;;
    finally
      (client <- RuntimeClient_new channel;;
       run_graph client graph py_inputs)
      (Channel_close channel) in
  async_to_sync _run (_host (_channel self), _port (_channel self)).

(** [RuntimeClient.type_check_graph].  When no field of the group is
    set, [message] is [None] and goes to [from_proto] as it is. *)
Definition type_check_graph (self : RuntimeClient) (graph : TierkreisGraph)
    : M TierkreisGraph :=
  value <- lift (match graph_to_value_proto graph with
                 | Some value => Ok value
                 | None => Err (ForeignError "IncompatiblePyType")
                 end);;
  stub <- _type_stub self;;
  response <- TypeInferenceStub_infer_type stub value;;
  let '(name, message) := which_one_of_response response in
  if String.eqb name "success" then
    match message with
    | MSuccess success =>
        if graph_is_none (its_value success) then raise AssertionError
        else
          match graph_from_value_proto (its_value success) with
          | Some annotated => ret annotated
          | None => raise (ForeignError "from_proto")
          end
    | _ => raise (AttributeError "value")
    end
  else
    match message with
    | MErrors errors => raise (TierkreisTypeErrors (type_errors_from_proto errors))
    | MNone =>
        match type_errors_from_none with
        | Some errors => raise (TierkreisTypeErrors errors)
        | None => raise (ForeignError "TierkreisTypeErrors.from_proto")
        end
    | MSuccess _ => raise (AttributeError "errors")
    end.

(** ** Worker-side handlers

    A handler is arbitrary code that reaches the runtime through the
    public methods of a [RuntimeClient].  It is a tree of such calls:
    after each call the handler sees the value or the exception and goes
    on.  The [async] methods are awaited; [run_graph_block] is an
    ordinary call, which blocks the handler until it is through. *)

(** The [async] methods of the client. *)
Inductive ClientCall : Type → Type :=
  | CallGetSignature : ClientCall (gmap string NamespaceDefs)
  | CallStartTask (graph : TierkreisGraph) (py_inputs : list (string * PyObj))
      : ClientCall TaskHandle
  | CallListTasks : ClientCall (gmap TaskHandle string)
  | CallAwaitTask (task_ : TaskHandle) : ClientCall (gmap string TierkreisValue)
  | CallDeleteTask (task_ : TaskHandle) : ClientCall unit
  | CallRunGraph (graph : TierkreisGraph) (py_inputs : list (string * PyObj))
      : ClientCall (gmap string TierkreisValue)
  | CallTypeCheckGraph (graph : TierkreisGraph) : ClientCall TierkreisGraph.

Definition perform {X} (self : RuntimeClient) (call : ClientCall X) : M X :=
  match call in ClientCall T return M T with
  | CallGetSignature => get_signature self
  | CallStartTask graph py_inputs => start_task self graph py_inputs
  | CallListTasks => list_tasks self
  | CallAwaitTask task_ => await_task self task_
  | CallDeleteTask task_ => delete_task self task_
  | CallRunGraph graph py_inputs => run_graph self graph py_inputs
  | CallTypeCheckGraph graph => type_check_graph self graph
  end.

Inductive Coroutine (R : Type) : Type :=
  | Return (r : R)
  | Raise (e : exn)
  | Await {X : Type} (self : RuntimeClient) (call : ClientCall X)
      (k : Result X → Coroutine R)
  | Block (self : RuntimeClient) (graph : TierkreisGraph)
      (py_inputs : list (string * PyObj))
      (k : Result (gmap string TierkreisValue) → Coroutine R).
Global Arguments Return {R} r.
Global Arguments Raise {R} e.
Global Arguments Await {R X} self call k.
Global Arguments Block {R} self graph py_inputs k.

Fixpoint run_coroutine {R} (c : Coroutine R) : M R :=
  match c with
  | Return r => ret r
  | Raise e => raise e
  | Await self call k => λ w,
      match perform self call w with
      | (r, w') => run_coroutine (k r) w'
      end
  | Block self graph py_inputs k => λ w,
      match run_graph_block self graph py_inputs w with
      | (r, w') => run_coroutine (k r) w'
      end
  end.

(** A positional or keyword argument: a client or a native value. *)
Inductive Arg : Type :=
  | ArgClient (client : RuntimeClient)
  | ArgObj (o : PyObj).

(** A handler function: the names in [__annotations__] and the code,
    from positional and keyword arguments to a coroutine. *)
Record Handler (R : Type) : Type := mkHandler {
  annotations : gset string;
  call_handler : list Arg → list (string * Arg) → Coroutine R
}.
Global Arguments annotations {R} h.
Global Arguments call_handler {R} h args kwargs.

(** [tierkreis.worker.worker.Worker], as far as the decorator reads it. *)
Record Worker : Type := mkWorker {
  callback : option (string * Z)
}.

(** ** Worker callback authenticator *)

Definition _gen_auth_injector (login pwd : string) : Hook :=
  λ metadata, <["key" := pwd]> (<["token" := login]> metadata).

(** The function [wrapped_func] that [with_runtime_client] builds,
    called with positional arguments [args] and keyword arguments
    [kwargs]. *)
Definition wrapped_func {R} (worker : Worker) (func : Handler R)
    (args : list Arg) (kwargs : list (string * Arg)) : M R :=
  match callback worker with
  | None =>
      raise (RuntimeError "Callback address has not been extracted from request.")
  | Some (host, port) =>
      channel <- Channel_new host port;;
      finally
        (_token <- keyring_get_password _KEYRING_SERVICE "token";;
         _key <- keyring_get_password _KEYRING_SERVICE "key";;
         (match _token, _key with
          | Some t, Some k => listen channel (_gen_auth_injector t k)
          | _, _ => ret tt
          end);;;
         client <- RuntimeClient_new channel;;
         let args := ArgClient client :: args in
         run_coroutine (call_handler func args kwargs))
        (Channel_close channel)
  end.

(** [with_runtime_client(worker)(func)]: wrapping fails unless the
    handler declares a parameter named [client]. *)
Definition with_runtime_client {R} (worker : Worker) (func : Handler R)
    : Result (list Arg → list (string * Arg) → M R) :=
  if decide ("client" ∈ annotations func) then Ok (wrapped_func worker func)
  else Err (RuntimeError
    "Function to be wrapped must have 'channel: RuntimeClient' as first argument").

End Client.

(** ** Vocabulary of the statements *)

(** [namespace/short]. *)
Definition qualified (namespace short : string) : string :=
  namespace +:+ String slash short.

Definition one_separator (name : string) : Prop := str_count slash name = 1%nat.

(** Every fully-qualified name of a response, functions first. *)
Definition names {collab : Collaborators} (pr_sig : ListFunctionsResponse)
    : list string :=
  (pr_functions pr_sig).*1 ++ (pr_aliases pr_sig).*1.

(** What a registry holds under a namespace and a short name. *)
Definition fun_view {collab : Collaborators} (sig : gmap string NamespaceDefs)
    (ns f : string) : option TierkreisFunction :=
  sig !! ns ≫= λ defs, functions defs !! f.

Definition alias_view {collab : Collaborators} (sig : gmap string NamespaceDefs)
    (ns a : string) : option TypeScheme :=
  sig !! ns ≫= λ defs, aliases defs !! a.

(** The registry [sig] is the merge of the response [pr_sig]: its
    namespaces are those of the entries, and each namespace's one record
    holds exactly the functions and the aliases sent under it. *)
Definition merged {collab : Collaborators} (pr_sig : ListFunctionsResponse)
    (sig : gmap string NamespaceDefs) : Prop :=
  (∀ ns, is_Some (sig !! ns) ↔ ∃ short, qualified ns short ∈ names pr_sig)
  ∧ (∀ ns f func, fun_view sig ns f = Some func ↔
       ∃ entry, (qualified ns f, entry) ∈ pr_functions pr_sig
                ∧ func = function_from_proto entry)
  ∧ (∀ ns a type_, alias_view sig ns a = Some type_ ↔
       ∃ type_proto, (qualified ns a, type_proto) ∈ pr_aliases pr_sig
                     ∧ type_ = scheme_from_proto type_proto).

(** What is cached under [key] for the client of identity [i]. *)
Definition cached {collab : Collaborators} (w : World) (i : nat) (key : string)
    : option Stub :=
  default ∅ (client_stubs w !! i) !! key.

(** [later_world w w']: [w'] is [w] after any number of stub accesses
    and calls of [async] client methods, by any clients, whatever each
    of them returned. *)
Inductive later_world {collab : Collaborators} (w : World) : World → Prop :=
  | later_now : later_world w w
  | later_access w' self key stub_t :
      later_world w w' → later_world w (_stub_gen self key stub_t w').2
  | later_call w' X self (call : ClientCall X) :
      later_world w w' → later_world w (perform self call w').2.

(** [run_graph] as the specification words it: [start_task], then
    [await_task] on the handle it returned; the first failure is the
    outcome, and nothing is tried again. *)
Definition run_graph_spec {collab : Collaborators} (self : RuntimeClient)
    (graph : TierkreisGraph) (py_inputs : list (string * PyObj))
    : M (gmap string TierkreisValue) := λ w,
  match start_task self graph py_inputs w with
  | (Err e, w1) => (Err e, w1)
  | (Ok handle, w1) =>
      match await_task self handle w1 with
      | (Err e, w2) => (Err e, w2)
      | (Ok outputs, w2) => (Ok outputs, w2)
      end
  end.

(** The metadata a request carries when it leaves over [ch] while the
    listeners [ls] are registered. *)
Definition stamped_metadata (ls : list (nat * Hook)) (ch : Channel)
    : gmap string string :=
  foldl (λ md hook, hook md) ∅ (snd <$> filter (λ entry, entry.1 = chan_id ch) ls).

(** The event is a request that went through the listeners [ls]. *)
Definition sent_through {collab : Collaborators} (ls : list (nat * Hook))
    (ev : Event) : Prop :=
  match ev with
  | RequestSent ch md _ => md = stamped_metadata ls ch
  | _ => False
  end.

(** [w'] is [w] after some requests were sent and stubs cached: the
    listeners, the credential store and the server are those of [w],
    identities were only handed out, and what was cached still is. *)
Definition extends {collab : Collaborators} (w w' : World) : Prop :=
  ∃ new, events w' = events w ++ new
    ∧ Forall (sent_through (listeners w)) new
    ∧ listeners w' = listeners w
    ∧ keyring w' = keyring w
    ∧ server w' = server w
    ∧ (next_id w ≤ next_id w')%nat
    ∧ ∀ i key stub, cached w i key = Some stub → cached w' i key = Some stub.

(** A computation that, apart from caching stubs, only sends requests. *)
Definition only_sends {collab : Collaborators} {A} (m : M A) : Prop :=
  ∀ w, extends w (m w).2.

(** The event fits the listeners [ls] and the identity counter [n]: a
    request carries the metadata the listeners give it; a channel that
    is opened or closed is one allocated at [n] or later. *)
Definition fits {collab : Collaborators} (ls : list (nat * Hook)) (n : nat)
    (ev : Event) : Prop :=
  match ev with
  | RequestSent ch md _ => md = stamped_metadata ls ch
  | ChannelOpened ch | ChannelClosed ch => (n ≤ chan_id ch)%nat
  end.

(** [w'] is [w] after some traffic: requests sent through the listeners
    of [w], new channels opened and closed; the listeners, the
    credential store and the server are those of [w]. *)
Definition traffic {collab : Collaborators} (w w' : World) : Prop :=
  ∃ new, events w' = events w ++ new
    ∧ Forall (fits (listeners w) (next_id w)) new
    ∧ listeners w' = listeners w
    ∧ keyring w' = keyring w
    ∧ server w' = server w
    ∧ (next_id w ≤ next_id w')%nat.


(** ** The rest of the client module *)
Section ClientRest.

Context {collab : Collaborators}.

Notation "x <- m ;; k" := (bind m (λ x, k))
  (at level 100, m at next level, right associativity).

(** [str(n)] of an [int]: decimal digits, a leading [-] when negative. *)
Definition py_int_str (n : Z) : string :=
  DecimalString.NilZero.string_of_int (Z.to_int n).

(** [RuntimeHTTPError.__str__]. *)
Definition RuntimeHTTPError_str (endpoint : string) (code : Z) (content : string)
    : string :=
  "Request to endpoint '" +:+ endpoint +:+ "'"
  +:+ " failed with code " +:+ py_int_str code
  +:+ " and content '" +:+ content +:+ "'.".

(** [InputConversionError.__str__]: two adjacent literals follow the
    name, joined as they stand. *)
Definition InputConversionError_str (input_name : string) : string :=
  "Input value with name " +:+ input_name +:+ " cannot be"
  +:+ "converted to a TierkreisValue.".

(** [RuntimeClient.socket_address]. *)
Definition socket_address (self : RuntimeClient) : string :=
  _host (_channel self) +:+ ":" +:+ py_int_str (_port (_channel self)).

(** *** Vocabulary for the statements about them *)

(** The label [list_tasks] gives an entry. *)
Definition status_label (t : Task) : string :=
  if String.eqb (which_one_of_status t).1 "" then "running"
  else (which_one_of_status t).1.

(** Every stub in the client's cache was built by the property of its
    key: it is bound to the client's channel and has the key's class. *)
Definition own_cache (self : RuntimeClient) (w : World) : Prop :=
  ∀ key stub, _stubs self w !! key = Some stub →
    stub_channel stub = _channel self
    ∧ (key = "signature" → stub_class stub = SignatureStub)
    ∧ (key = "runtime" → stub_class stub = RuntimeStub)
    ∧ (key = "type" → stub_class stub = TypeInferenceStub).

(** The request [req] as it leaves over the client's channel in [w]. *)
Definition request_event (self : RuntimeClient) (w : World) (req : Request)
    : Event :=
  RequestSent (_channel self)
    (stamped_metadata (listeners w) (_channel self)) req.

(** [w'] differs from [w] at most in the stub caches and the identity
    counter. *)
Definition same_but_caches (w w' : World) : Prop :=
  events w' = events w ∧ listeners w' = listeners w
  ∧ keyring w' = keyring w ∧ server w' = server w.

(** Listeners are registered on allocated channels only. *)
Definition listeners_allocated (w : World) : Prop :=
  ∀ entry, entry ∈ listeners w → (entry.1 < next_id w)%nat.

Definition is_request (ev : Event) : Prop :=
  match ev with
  | RequestSent _ _ _ => True
  | _ => False
  end.

End ClientRest.

(** A computation that keeps the client's cache its own, leaves the
    caches of other clients alone and sends every request over the
    client's channel, through the listeners registered when it started;
    [Q] holds of what it returns. *)
Definition sends_own {collab : Collaborators} {A} (self : RuntimeClient)
    (Q : A → Prop) (m : M A) : Prop :=
  ∀ w, own_cache self w →
    own_cache self (m w).2
    ∧ listeners (m w).2 = listeners w
    ∧ (∀ i, i ≠ client_id self →
         client_stubs (m w).2 !! i = client_stubs w !! i)
    ∧ (∀ a, (m w).1 = Ok a → Q a)
    ∧ ∃ sent, events (m w).2 = events w ++ sent
        ∧ Forall (λ ev, ∃ req, ev = request_event self w req) sent.

(** ** The pytket worker: [pytket_worker/main.py]

    The two functions of the worker that compute something themselves
    ([z_expectation], [substitute_symbols]); what they take from pytket,
    sympy, the float arithmetic of Python and its [int] and [repr] on
    characters is an interface. *)
Module PytketWorker.

Class Numerics : Type := {
  (* a character: what iterating a state, a [str], yields *)
  char : Type;
  (* [int(c)] of the one-character string [c]; [None]: it raises
     [ValueError] *)
  int_digit : char → option Z;
  (* [repr(c)] *)
  char_repr : char → string;
  float : Type;
  float_of_int : Z → float;        (* the conversion of a mixed operation *)
  float_add : float → float → float;
  float_sub : float → float → float;
  float_mul : float → float → float;
  CircStruct : Type;
  Circuit : Type;
  _load_circstruct : CircStruct → Circuit;
  _dump_circstruct : Circuit → CircStruct;
  (* [Circuit.symbol_substitution], which edits the circuit in place *)
  symbol_substitution : gmap string float → Circuit → Circuit
}.

Inductive error : Type :=
  | TypeError (msg : string)
  | ValueError (msg : string).

Section Worker.

Context {numerics : Numerics}.

(** A Python number: [int] or [float]. *)
Inductive num : Type :=
  | Int (n : Z)
  | Float (x : float).

Definition to_float (a : num) : float :=
  match a with
  | Int n => float_of_int n
  | Float x => x
  end.

(** [a + b], [a - b], [a * b]: exact on two ints, else both operands
    are taken to floats. *)
Definition add (a b : num) : num :=
  match a, b with
  | Int n, Int m => Int (n + m)
  | _, _ => Float (float_add (to_float a) (to_float b))
  end.

Definition sub (a b : num) : num :=
  match a, b with
  | Int n, Int m => Int (n - m)
  | _, _ => Float (float_sub (to_float a) (to_float b))
  end.

Definition mul (a b : num) : num :=
  match a, b with
  | Int n, Int m => Int (n * m)
  | _, _ => Float (float_mul (to_float a) (to_float b))
  end.

(** [int(c)] of a one-character string. *)
Definition int_of_char (c : char) : error + Z :=
  match int_digit c with
  | Some d => inr d
  | None =>
      inl (ValueError ("invalid literal for int() with base 10: " +:+ char_repr c))
  end.

(** The loop of [reduce(operator.xor, ...)] once it has a first value. *)
Fixpoint xor_digits (acc : Z) (state : list char) : error + Z :=
  match state with
  | [] => inr acc
  | c :: rest =>
      match int_of_char c with
      | inl e => inl e
      | inr d => xor_digits (Z.lxor acc d) rest
      end
  end.

(** [reduce(operator.xor, map(int, state))] on the characters of
    [state]: without an initial value the first item starts the
    reduction, and an empty [state] raises. *)
Definition reduce_xor (state : list char) : error + Z :=
  match state with
  | [] =>
      inl (TypeError "reduce() of empty iterable with no initial value")
  | c :: rest =>
      match int_of_char c with
      | inl e => inl e
      | inr d => xor_digits d rest
      end
  end.

(** [sum(... for state, val in pure_dist.items())], from [acc]. *)
Fixpoint sum_terms (acc : num) (items : list (list char * float)) : error + num :=
  match items with
  | [] => inr acc
  | (state, val) :: rest =>
      match reduce_xor state with
      | inl e => inl e
      | inr parity => sum_terms (add acc (mul (Int parity) (Float val))) rest
      end
  end.

(** [z_expectation(dist)], on [dist.distribution] in iteration order. *)
Definition z_expectation (pure_dist : list (list char * float)) : error + num :=
  match sum_terms (Int 0) pure_dist with
  | inl e => inl e
  | inr s => inr (sub (Int 1) (mul (Int 2) s))
  end.

(** [{Symbol(key): val for key, val in zip(symbs, params)}]. *)
Definition symbol_map (symbs : list string) (params : list float)
    : gmap string float :=
  foldl (λ m item, <[item.1 := item.2]> m) ∅ (zip symbs params).

(** [substitute_symbols(circ, symbs, params)], the value of the
    [CircArg] it returns. *)
Definition substitute_symbols (circ : CircStruct) (symbs : list string)
    (params : list float) : CircStruct :=
  let tkcirc := _load_circstruct circ in
  let tkcirc := symbol_substitution (symbol_map symbs params) tkcirc in
  _dump_circstruct tkcirc.

(** A state of binary digits only: [int] takes each character to 0 or
    to 1. *)
Definition is_bitstring (state : list char) : Prop :=
  Forall (λ c, int_digit c = Some 0 ∨ int_digit c = Some 1) state.

(** A state of characters [int] accepts. *)
Definition is_digits (state : list char) : Prop :=
  Forall (λ c, is_Some (int_digit c)) state.

(** How many characters of [state] are ones. *)
Definition ones (state : list char) : nat :=
  length (filter (λ c, int_digit c = Some 1) state).

End Worker.

End PytketWorker.

(** ** A sample instantiation of the collaborators

    Small concrete types on which the definitions above evaluate. *)
Module Sample.

Inductive Native : Type :=
  | NInt (z : Z)
  | NText (s : string)
  | NSocket.                 (* an object without a typed-value form *)

Inductive Value : Type :=
  | VInt (z : Z)
  | VText (s : string)
  | VGraph.

Definition convert (o : Native) : option Value :=
  match o with
  | NInt z => Some (VInt z)
  | NText s => Some (VText s)
  | NSocket => None
  end.

Definition collab : Collaborators := {|
  PyObj := Native;
  TierkreisValue := Value;
  TierkreisGraph := unit;
  GraphProto := unit;
  ValueProto := Value;
  TypeErrorsProto := list string;
  TypeErrors := list string;
  FunctionProto := string;
  TypeSchemeProto := string;
  TierkreisFunction := string;
  TypeScheme := string;
  from_python := convert;
  graph_to_proto := λ g, g;
  to_proto_dict := λ d, d;
  from_proto_dict := λ d, Some d;
  type_errors_from_proto := λ e, e;
  no_type_errors := [];
  type_errors_from_none := None;
  graph_to_value_proto := λ _, Some VGraph;
  graph_is_none := λ v, match v with VGraph => false | _ => true end;
  graph_from_value_proto := λ v, match v with VGraph => Some () | _ => None end;
  function_from_proto := λ e, e;
  scheme_from_proto := λ e, e;
  map_str := λ _, "{...}";
  _KEYRING_SERVICE := "tierkreis";
  interned := λ _, false
|}.

#[local] Existing Instance collab.

Definition channel : Channel := mkChannel 0 "localhost" 8080.
Definition client : RuntimeClient := mkRuntimeClient 1 channel.

(** Two entries under one task id: the first without a status, the
    second failed. *)
Definition repeated_tasks : list Task :=
  [mkTask "t" StatusUnset; mkTask "t" (StatusError "boom")].

Definition distinct_tasks : list Task :=
  [mkTask "a" StatusUnset;
   mkTask "b" (StatusSuccess (mkStructValueProto {["result" := VInt 3]}))].

(** A runtime that accepts every graph as task ["task-1"], which
    succeeds with one output, and lists the given tasks. *)
Definition server_listing (listed : list Task) : Server := {|
  reply_list_functions := λ _, Ok (mkListFunctionsResponse [] []);
  reply_run_task := λ _, Ok (ResultTaskId "task-1");
  reply_list_tasks := λ _, Ok (mkListTasksResponse listed);
  reply_await_task := λ _,
    Ok (mkAwaitTaskResponse
          (mkTask "task-1"
             (StatusSuccess (mkStructValueProto {["result" := VInt 3]}))));
  reply_delete_task := λ _, Ok tt;
  reply_infer_type := λ _, Ok (ResponseSuccess (mkInferTypeSuccess VGraph))
|}.

(** A runtime that rejects every graph and whose tasks fail. *)
Definition server_rejecting : Server := {|
  reply_list_functions := λ _, Ok (mkListFunctionsResponse [] []);
  reply_run_task := λ _, Ok (ResultTypeErrors ["port angle: Float expected"]);
  reply_list_tasks := λ _, Ok (mkListTasksResponse []);
  reply_await_task := λ _,
    Ok (mkAwaitTaskResponse (mkTask "task-1" (StatusError "boom")));
  reply_delete_task := λ _, Ok tt;
  reply_infer_type := λ _, Ok (ResponseError ["port angle: Float expected"])
|}.

Definition credentials : gmap (string * string) string :=
  {[("tierkreis", "token") := "alice"; ("tierkreis", "key") := "s3cret"]}.

(** Before anything ran: identities 0 and 1 are taken by [channel] and
    [client], whose cache is empty. *)
Definition world (keys : gmap (string * string) string) (srv : Server) : World :=
  mkWorld [] [] {[1%nat := ∅]} 2 keys srv.

(** A handler that starts one task through the client it is given and
    returns the task id. *)
Definition submit : Handler Native := {|
  annotations := {["client"; "angle"]};
  call_handler := λ args _,
    match args with
    | ArgClient c :: _ =>
        Await c (CallStartTask () [("angle", NInt 15)])
          (λ r, match r with
                | Ok handle => Return (NText (task_id handle))
                | Err e => Raise e
                end)
    | _ => Raise (ValueError "client expected")
    end
|}.

(** A handler that runs a graph to its end through the blocking call of
    the client it is given. *)
Definition submit_blocking : Handler Native := {|
  annotations := {["client"]};
  call_handler := λ args _,
    match args with
    | ArgClient c :: _ =>
        Block c () [("angle", NInt 15)]
          (λ r, match r with
                | Ok outputs => Return (NInt (Z.of_nat (size outputs)))
                | Err e => Raise e
                end)
    | _ => Raise (ValueError "client expected")
    end
|}.

Definition worker_ready : Worker := mkWorker (Some ("localhost", 8080)).
Definition worker_idle : Worker := mkWorker None.

Definition qubit_signature : ListFunctionsResponse :=
  mkListFunctionsResponse [("qubit/h", "H"); ("qubit/x", "X")]
                          [("qubit/QubitAlias", "Qubit")].

Definition qubit_signature_reordered : ListFunctionsResponse :=
  mkListFunctionsResponse [("qubit/x", "X"); ("qubit/h", "H")]
                          [("qubit/QubitAlias", "Qubit")].

(** A function published without a namespace. *)
Definition unqualified_signature : ListFunctionsResponse :=
  mkListFunctionsResponse [("h", "H")] [].

(** Two bad names: the nested one comes first. *)
Definition nested_signature : ListFunctionsResponse :=
  mkListFunctionsResponse [("qubit/h", "H"); ("a/b/c", "X")] [("solo", "Y")].

(** Another client object that talks to the same address. *)
Definition other_client : RuntimeClient :=
  mkRuntimeClient 5 (mkChannel 4 "localhost" 8080).

(** [int] on the characters below U+0100: the decimal digits among
    them are ["0"] to ["9"]. *)
Definition ascii_digit (c : ascii) : option Z :=
  let n := Z.of_nat (nat_of_ascii c) in
  if decide (48 ≤ n ≤ 57) then Some (n - 48) else None.

(** Characters below U+0100, exact arithmetic on integers in the place
    of floats, circuits as lists of gate names. *)
Definition exact_numerics : PytketWorker.Numerics := {|
  PytketWorker.char := ascii;
  PytketWorker.int_digit := ascii_digit;
  PytketWorker.char_repr := λ c, String "'" (String c "'");
  PytketWorker.float := Z;
  PytketWorker.float_of_int := λ n, n;
  PytketWorker.float_add := Z.add;
  PytketWorker.float_sub := Z.sub;
  PytketWorker.float_mul := Z.mul;
  PytketWorker.CircStruct := list string;
  PytketWorker.Circuit := list string;
  PytketWorker._load_circstruct := λ c, c;
  PytketWorker._dump_circstruct := λ c, c;
  PytketWorker.symbol_substitution := λ _ c, c
|}.

End Sample.

(** * Properties *)

(** ** [str.split] *)

Lemma str_split_length sep n s :
  length (str_split sep n s) = S (Nat.min n (str_count sep s)).
Proof.
  revert n. induction s as [|c rest IH]; intros n; simpl.
  - by rewrite Nat.min_0_r.
  - destruct (Ascii.eqb c sep).
    + destruct n as [|m]; simpl; [done|]. by rewrite IH.
    + specialize (IH n). destruct (str_split sep n rest) as [|hd tl]; simpl in *; lia.
Qed.

Lemma str_split_no_sep sep n s :
  str_count sep s = O → str_split sep n s = [s].
Proof.
  induction s as [|c rest IH]; simpl; [done|].
  destruct (Ascii.eqb c sep); [done|]. intros H. by rewrite IH.
Qed.

Lemma str_split_cut sep n a b :
  str_count sep a = O →
  str_split sep (S n) (a +:+ String sep b) = a :: str_split sep n b.
Proof.
  induction a as [|c rest IH]; simpl.
  - intros _. by rewrite Ascii.eqb_refl.
  - destruct (Ascii.eqb c sep); [done|]. intros H. by rewrite IH.
Qed.

Lemma str_count_app sep a b :
  str_count sep (a +:+ b) = (str_count sep a + str_count sep b)%nat.
Proof. induction a as [|c rest IH]; simpl; [done|]. rewrite IH. lia. Qed.

(** A string with a separator splits at its first one. *)
Lemma str_first_sep sep s :
  (0 < str_count sep s)%nat →
  ∃ a b, s = a +:+ String sep b ∧ str_count sep a = O
         ∧ str_count sep s = S (str_count sep b).
Proof.
  induction s as [|c rest IH]; simpl; [lia|].
  destruct (Ascii.eqb c sep) eqn:E.
  - intros _. apply Ascii.eqb_eq in E as ->.
    exists EmptyString, rest. done.
  - intros H. destruct (IH H) as (a & b & -> & Ha & Hb).
    exists (String c a), b. simpl. rewrite E. done.
Qed.

Lemma str_split_two sep s a b :
  str_split sep 2 s = [a; b] ↔
  s = a +:+ String sep b ∧ str_count sep a = O ∧ str_count sep b = O.
Proof.
  split.
  - intros H.
    pose proof (str_split_length sep 2 s) as Hl. rewrite H in Hl.
    change (length [a; b]) with 2%nat in Hl.
    assert (str_count sep s = 1%nat) as Hc by lia.
    destruct (str_first_sep sep s) as (a' & b' & -> & Ha & Hb); [lia|].
    rewrite str_split_cut in H by done.
    rewrite str_split_no_sep in H by lia.
    injection H as -> ->. split; [done|]. split; [done|lia].
  - intros (-> & Ha & Hb). rewrite str_split_cut by done.
    by rewrite str_split_no_sep.
Qed.

Lemma str_split_zero sep s : str_split sep 0 s = [s].
Proof.
  induction s as [|c rest IH]; simpl; [done|].
  destruct (Ascii.eqb c sep); [done|]. by rewrite IH.
Qed.

Lemma str_count_qualified ns f :
  str_count slash (qualified ns f)
  = S (str_count slash ns + str_count slash f)%nat.
Proof.
  unfold qualified. rewrite str_count_app. simpl. lia.
Qed.

Lemma qualified_inj ns f ns' f' :
  str_count slash ns = O → str_count slash ns' = O →
  qualified ns f = qualified ns' f' → ns = ns' ∧ f = f'.
Proof.
  intros Hn Hn' Heq.
  apply (f_equal (str_split slash 1)) in Heq. unfold qualified in Heq.
  rewrite !str_split_cut, !str_split_zero in Heq by done.
  by injection Heq as -> ->.
Qed.

Section Signature.

Context {collab : Collaborators}.

Lemma unpack2_Ok parts a b : unpack2 parts = Ok (a, b) ↔ parts = [a; b].
Proof.
  split; [|by intros ->].
  destruct parts as [|x [|y [|z rest]]]; simpl; try discriminate.
  by intros [= -> ->].
Qed.

Lemma unpack2_Err parts e :
  unpack2 parts = Err e → ∃ msg, e = ValueError msg.
Proof.
  destruct parts as [|x [|y [|z rest]]]; simpl; try discriminate;
    intros [= <-]; eauto.
Qed.

(** The split succeeds exactly on names with one separator, and then
    cuts the name at it. *)
Lemma split_name_Ok name ns f :
  split_name name = Ok (ns, f) ↔
  name = qualified ns f ∧ str_count slash ns = O ∧ str_count slash f = O.
Proof. unfold split_name. rewrite unpack2_Ok. apply str_split_two. Qed.

Lemma split_name_cases name :
  match split_name name with
  | Ok _ => str_count slash name = 1%nat
  | Err e => (∃ msg, e = ValueError msg) ∧ str_count slash name ≠ 1%nat
  end.
Proof.
  destruct (split_name name) as [[ns f]|e] eqn:E.
  - apply split_name_Ok in E as (-> & Hn & Hf).
    rewrite str_count_qualified. lia.
  - split; [by eapply unpack2_Err|]. intros Hc.
    destruct (str_first_sep slash name) as (a & b & Hs & Ha & Hb); [lia|].
    assert (split_name name = Ok (a, b)) as E'.
    { apply split_name_Ok. split; [done|]. split; [done|lia]. }
    congruence.
Qed.

Lemma split_name_one name :
  str_count slash name = 1%nat → ∃ ns f, split_name name = Ok (ns, f).
Proof.
  intros Hc. pose proof (split_name_cases name) as H.
  destruct (split_name name) as [[ns f]|e]; [eauto|]. by destruct H.
Qed.

(** A loop whose body raises exactly on the items outside [P]. *)
Lemma for_each_cases {S X} (body : S → X → Result S)
    (P : X → Prop) (Q : exn → Prop) (items : list X) (s : S) :
  (∀ s x, match body s x with Ok _ => P x | Err e => Q e ∧ ¬ P x end) →
  match for_each body items s with
  | Ok _ => Forall P items
  | Err e => Q e ∧ Exists (λ x, ¬ P x) items
  end.
Proof.
  intros Hbody. revert s. induction items as [|x rest IH]; intros s; simpl.
  - constructor.
  - specialize (Hbody s x). destruct (body s x) as [s'|e]; simpl.
    + specialize (IH s'). destruct (for_each body rest s') as [s''|e].
      * by constructor.
      * destruct IH. split; [done|]. by apply Exists_cons_tl.
    + destruct Hbody. split; [done|]. by apply Exists_cons_hd.
Qed.

Lemma add_function_cases s x :
  match add_function s x with
  | Ok _ => one_separator x.1
  | Err e => (∃ msg, e = ValueError msg) ∧ ¬ one_separator x.1
  end.
Proof.
  unfold add_function. pose proof (split_name_cases x.1) as H.
  destruct (split_name x.1) as [[ns f]|e]; simpl; [|done].
  by destruct (s !! ns).
Qed.

Lemma add_alias_cases s x :
  match add_alias s x with
  | Ok _ => one_separator x.1
  | Err e => (∃ msg, e = ValueError msg) ∧ ¬ one_separator x.1
  end.
Proof.
  unfold add_alias. pose proof (split_name_cases x.1) as H.
  destruct (split_name x.1) as [[ns f]|e]; simpl; [|done].
  by destruct (s !! ns).
Qed.

(** C10: [signature_from_proto] produces a registry exactly when every
    function and alias name holds one [/]; as soon as a name holds none,
    or two or more, the two-target assignment of the split raises
    [ValueError] and no registry is produced. *)
Theorem signature_from_proto_partial (pr_sig : ListFunctionsResponse) :
  match signature_from_proto pr_sig with
  | Ok _ => Forall one_separator (names pr_sig)
  | Err e =>
      (∃ msg, e = ValueError msg)
      ∧ Exists (λ name, ¬ one_separator name) (names pr_sig)
  end.
Proof.
  unfold signature_from_proto, names.
  pose proof (for_each_cases add_function (λ x, one_separator x.1)
    (λ e, ∃ msg, e = ValueError msg) (pr_functions pr_sig) ∅
    add_function_cases) as Hf.
  destruct (for_each add_function (pr_functions pr_sig) ∅) as [m|e]; simpl.
  - pose proof (for_each_cases add_alias (λ x, one_separator x.1)
      (λ e, ∃ msg, e = ValueError msg) (pr_aliases pr_sig) m
      add_alias_cases) as Ha.
    destruct (for_each add_alias (pr_aliases pr_sig) m) as [m'|e].
    + apply Forall_app. split; by apply Forall_fmap.
    + destruct Ha as [Hq Hex]. split; [done|].
      apply Exists_app. right. by apply Exists_fmap.
  - destruct Hf as [Hq Hex]. split; [done|].
    apply Exists_app. left. by apply Exists_fmap.
Qed.

End Signature.

(** ** One loop of the signature parser, abstractly

    Both loops of [signature_from_proto] have the same shape: split the
    name, then store the decoded entry under (namespace, short name),
    leaving the rest of the registry alone.  The loop invariant is
    proved once, for any body of that shape. *)
Section KeyedLoop.

Context {collab : Collaborators}.
Context {St E V : Type}.
Context (body : St → string * E → Result St) (conv : E → V).
Context (view : St → string → string → option V).
Context (present : St → string → Prop).

Hypothesis body_step : ∀ m name e ns f,
  split_name name = Ok (ns, f) →
  ∃ m1, body m (name, e) = Ok m1
    ∧ (∀ ns' f', view m1 ns' f'
         = if decide (ns = ns' ∧ f = f') then Some (conv e) else view m ns' f')
    ∧ (∀ ns', present m1 ns' ↔ ns = ns' ∨ present m ns').

Lemma qualified_eq_iff ns f ns0 f0 :
  str_count slash ns0 = O → str_count slash f0 = O →
  qualified ns f = qualified ns0 f0 ↔ ns0 = ns ∧ f0 = f.
Proof.
  intros Hn Hf. split; [|by intros [-> ->]].
  intros Heq. pose proof (f_equal (str_count slash) Heq) as Hc.
  rewrite !str_count_qualified in Hc.
  apply qualified_inj in Heq as [-> ->]; [done|lia|done].
Qed.

Lemma keyed_loop (l : list (string * E)) (m : St) :
  Forall (λ item, one_separator item.1) l → NoDup l.*1 →
  ∃ m', for_each body l m = Ok m'
    ∧ (∀ ns, present m' ns ↔
         present m ns ∨ ∃ short, qualified ns short ∈ l.*1)
    ∧ (∀ ns f v, view m' ns f = Some v ↔
         (∃ e, (qualified ns f, e) ∈ l ∧ v = conv e)
         ∨ ((qualified ns f ∉ l.*1) ∧ view m ns f = Some v)).
Proof.
  revert m. induction l as [|[name0 e0] rest IH]; intros m Hone Hnd.
  - exists m. split; [done|]. split.
    + intros ns. split; [by left|]. intros [?|[short H]]; [done|].
      by apply elem_of_nil in H.
    + intros ns f v. split.
      * intros H. right. split; [apply not_elem_of_nil|done].
      * intros [(e & H & _)|[_ H]]; [by apply elem_of_nil in H|done].
  - apply Forall_cons in Hone as [Hone0 Hone].
    rewrite fmap_cons in Hnd. apply NoDup_cons in Hnd as [Hfresh Hnd].
    simpl in Hone0, Hfresh.
    destruct (split_name_one name0 Hone0) as (ns0 & f0 & Hsplit).
    pose proof Hsplit as Hq. apply split_name_Ok in Hq as (-> & Hn0 & Hf0).
    destruct (body_step m _ e0 _ _ Hsplit) as (m1 & Hbody & Hview & Hpres).
    destruct (IH m1 Hone Hnd) as (m' & Hloop & Hp' & Hv').
    exists m'. split; [by simpl; rewrite Hbody|]. split.
    + intros ns. rewrite Hp', Hpres. split.
      * intros [[->|?]|[short H]].
        -- right. exists f0. rewrite fmap_cons. apply elem_of_cons. by left.
        -- by left.
        -- right. exists short. rewrite fmap_cons. apply elem_of_cons. by right.
      * intros [?|[short H]]; [left; by right|].
        rewrite fmap_cons in H. apply elem_of_cons in H as [H|H].
        -- simpl in H. apply qualified_eq_iff in H as [-> _]; [|done..].
           left. by left.
        -- right. by exists short.
    + intros ns f v. rewrite Hv', Hview.
      rewrite fmap_cons, not_elem_of_cons. simpl fst.
      destruct (decide (ns0 = ns ∧ f0 = f)) as [[-> ->]|Hne].
      * split.
        -- intros [(e & He & ->)|[_ [= <-]]].
           ++ left. exists e. split; [|done]. apply elem_of_cons. by right.
           ++ left. exists e0. split; [|done]. apply elem_of_cons. by left.
        -- intros [(e & He & ->)|[[Hc _] _]]; [|done].
           apply elem_of_cons in He as [[= <-]|He]; [by right|].
           left. by exists e.
      * assert (qualified ns f ≠ qualified ns0 f0) as Hnq.
        { intros H. apply qualified_eq_iff in H; done. }
        split.
        -- intros [(e & He & ->)|[Hc Hm]].
           ++ left. exists e. split; [|done]. apply elem_of_cons. by right.
           ++ by right.
        -- intros [(e & He & ->)|[[_ Hc] Hm]].
           ++ apply elem_of_cons in He as [[= H _]|He]; [done|].
              left. by exists e.
           ++ by right.
Qed.

(** A quantity the body never changes survives the loop. *)
Lemma keyed_loop_frame {T} (frame : St → T) (l : list (string * E)) (m m' : St) :
  (∀ m item m1, body m item = Ok m1 → frame m1 = frame m) →
  for_each body l m = Ok m' → frame m' = frame m.
Proof.
  intros Hframe. revert m. induction l as [|item rest IH]; intros m; simpl.
  - by intros [= ->].
  - destruct (body m item) as [m1|e] eqn:Hb; simpl; [|done].
    intros H. rewrite (IH _ H). by eapply Hframe.
Qed.

End KeyedLoop.

(** ** The signature registry merges per namespace *)
Section Merge.

Context {collab : Collaborators}.

Lemma add_function_step m name e ns f :
  split_name name = Ok (ns, f) →
  ∃ m1, add_function m (name, e) = Ok m1
    ∧ (∀ ns' f', fun_view m1 ns' f'
         = if decide (ns = ns' ∧ f = f') then Some (function_from_proto e)
           else fun_view m ns' f')
    ∧ (∀ ns', is_Some (m1 !! ns') ↔ ns = ns' ∨ is_Some (m !! ns')).
Proof.
  intros Hs. unfold add_function. simpl. rewrite Hs. simpl.
  destruct (m !! ns) as [defs|] eqn:Hm; eexists; (split; [done|]); split.
  - intros ns' f'. unfold fun_view.
    destruct (decide (ns = ns')) as [<-|Hne].
    + rewrite lookup_insert_eq. simpl.
      destruct (decide (f = f')) as [<-|Hnf].
      * rewrite lookup_insert_eq. by rewrite decide_True.
      * rewrite lookup_insert_ne by done. rewrite Hm. simpl.
        rewrite decide_False; [done|]. by intros [_ ?].
    + rewrite lookup_insert_ne by done. rewrite decide_False; [done|].
      by intros [? _].
  - intros ns'. rewrite lookup_insert_is_Some. split.
    + intros [?|[_ ?]]; [by left|by right].
    + destruct (decide (ns = ns')); [by left|]. intros [?|?]; [done|by right].
  - intros ns' f'. unfold fun_view.
    destruct (decide (ns = ns')) as [<-|Hne].
    + rewrite lookup_insert_eq. simpl.
      destruct (decide (f = f')) as [<-|Hnf].
      * rewrite lookup_singleton_eq. by rewrite decide_True.
      * rewrite lookup_singleton_ne by done. rewrite Hm. simpl.
        rewrite decide_False; [done|]. by intros [_ ?].
    + rewrite lookup_insert_ne by done. rewrite decide_False; [done|].
      by intros [? _].
  - intros ns'. rewrite lookup_insert_is_Some. split.
    + intros [?|[_ ?]]; [by left|by right].
    + destruct (decide (ns = ns')); [by left|]. intros [?|?]; [done|by right].
Qed.

Lemma add_alias_step m name e ns a :
  split_name name = Ok (ns, a) →
  ∃ m1, add_alias m (name, e) = Ok m1
    ∧ (∀ ns' a', alias_view m1 ns' a'
         = if decide (ns = ns' ∧ a = a') then Some (scheme_from_proto e)
           else alias_view m ns' a')
    ∧ (∀ ns', is_Some (m1 !! ns') ↔ ns = ns' ∨ is_Some (m !! ns')).
Proof.
  intros Hs. unfold add_alias. simpl. rewrite Hs. simpl.
  destruct (m !! ns) as [defs|] eqn:Hm; eexists; (split; [done|]); split.
  - intros ns' a'. unfold alias_view.
    destruct (decide (ns = ns')) as [<-|Hne].
    + rewrite lookup_insert_eq. simpl.
      destruct (decide (a = a')) as [<-|Hnf].
      * rewrite lookup_insert_eq. by rewrite decide_True.
      * rewrite lookup_insert_ne by done. rewrite Hm. simpl.
        rewrite decide_False; [done|]. by intros [_ ?].
    + rewrite lookup_insert_ne by done. rewrite decide_False; [done|].
      by intros [? _].
  - intros ns'. rewrite lookup_insert_is_Some. split.
    + intros [?|[_ ?]]; [by left|by right].
    + destruct (decide (ns = ns')); [by left|]. intros [?|?]; [done|by right].
  - intros ns' a'. unfold alias_view.
    destruct (decide (ns = ns')) as [<-|Hne].
    + rewrite lookup_insert_eq. simpl.
      destruct (decide (a = a')) as [<-|Hnf].
      * rewrite lookup_singleton_eq. by rewrite decide_True.
      * rewrite lookup_singleton_ne by done. rewrite Hm. simpl.
        rewrite decide_False; [done|]. by intros [_ ?].
    + rewrite lookup_insert_ne by done. rewrite decide_False; [done|].
      by intros [? _].
  - intros ns'. rewrite lookup_insert_is_Some. split.
    + intros [?|[_ ?]]; [by left|by right].
    + destruct (decide (ns = ns')); [by left|]. intros [?|?]; [done|by right].
Qed.

(** The alias loop leaves every function where it is. *)
Lemma add_alias_frame ns f m item m1 :
  add_alias m item = Ok m1 → fun_view m1 ns f = fun_view m ns f.
Proof.
  unfold add_alias. destruct (split_name item.1) as [[ns0 a0]|e]; simpl; [|done].
  unfold fun_view.
  destruct (m !! ns0) as [defs|] eqn:Hm; intros [= <-];
    (destruct (decide (ns0 = ns)) as [->|Hne];
      [rewrite lookup_insert_eq, Hm; simpl|by rewrite lookup_insert_ne]).
  - done.
  - by rewrite lookup_empty.
Qed.

(** The function loop adds no alias. *)
Lemma add_function_frame ns a m item m1 :
  add_function m item = Ok m1 → alias_view m1 ns a = alias_view m ns a.
Proof.
  unfold add_function. destruct (split_name item.1) as [[ns0 f0]|e]; simpl; [|done].
  unfold alias_view.
  destruct (m !! ns0) as [defs|] eqn:Hm; intros [= <-];
    (destruct (decide (ns0 = ns)) as [->|Hne];
      [rewrite lookup_insert_eq, Hm; simpl|by rewrite lookup_insert_ne]).
  - done.
  - by rewrite lookup_empty.
Qed.

(** A registry is determined by its namespaces and its two views. *)
Lemma registry_ext (m1 m2 : gmap string NamespaceDefs) :
  (∀ ns, is_Some (m1 !! ns) ↔ is_Some (m2 !! ns)) →
  (∀ ns f, fun_view m1 ns f = fun_view m2 ns f) →
  (∀ ns a, alias_view m1 ns a = alias_view m2 ns a) →
  m1 = m2.
Proof.
  intros Hdom Hfun Hal. apply map_eq. intros ns.
  specialize (Hdom ns).
  destruct (m1 !! ns) as [[f1 a1]|] eqn:H1, (m2 !! ns) as [[f2 a2]|] eqn:H2.
  - f_equal. f_equal.
    + apply map_eq. intros f. specialize (Hfun ns f).
      unfold fun_view in Hfun. by rewrite H1, H2 in Hfun.
    + apply map_eq. intros a. specialize (Hal ns a).
      unfold alias_view in Hal. by rewrite H1, H2 in Hal.
  - destruct Hdom as [Hd _]. by destruct Hd.
  - destruct Hdom as [_ Hd]. by destruct Hd.
  - done.
Qed.

Lemma merged_unique pr_sig sig sig' :
  merged pr_sig sig → merged pr_sig sig' → sig = sig'.
Proof.
  intros (Hd & Hf & Ha) (Hd' & Hf' & Ha'). apply registry_ext.
  - intros ns. by rewrite Hd, Hd'.
  - intros ns f. apply option_eq. intros v. by rewrite Hf, Hf'.
  - intros ns a. apply option_eq. intros v. by rewrite Ha, Ha'.
Qed.

(** Being the merge of a response does not depend on the order in which
    the response lists its entries. *)
Lemma merged_perm pr_sig pr_sig' sig :
  pr_functions pr_sig' ≡ₚ pr_functions pr_sig →
  pr_aliases pr_sig' ≡ₚ pr_aliases pr_sig →
  merged pr_sig' sig → merged pr_sig sig.
Proof.
  intros Pf Pa (Hd & Hf & Ha). split; [|split].
  - intros ns. rewrite Hd. unfold names.
    split; intros [short H]; exists short; revert H;
      rewrite !elem_of_app; by rewrite Pf, Pa.
  - intros ns f v. rewrite Hf.
    split; intros (e & H & ->); exists e; (split; [|done]); revert H; by rewrite Pf.
  - intros ns a v. rewrite Ha.
    split; intros (e & H & ->); exists e; (split; [|done]); revert H; by rewrite Pa.
Qed.

Lemma signature_from_proto_merged pr_sig :
  Forall one_separator (names pr_sig) →
  NoDup (pr_functions pr_sig).*1 → NoDup (pr_aliases pr_sig).*1 →
  ∃ sig, signature_from_proto pr_sig = Ok sig ∧ merged pr_sig sig.
Proof.
  intros Hone Hndf Hnda. unfold names in Hone.
  apply Forall_app in Hone as [Hof Hoa].
  rewrite Forall_fmap in Hof. rewrite Forall_fmap in Hoa.
  destruct (keyed_loop add_function function_from_proto fun_view
              (λ m ns, is_Some (m !! ns)) add_function_step
              (pr_functions pr_sig) ∅ Hof Hndf) as (mf & Hlf & Hpf & Hvf).
  destruct (keyed_loop add_alias scheme_from_proto alias_view
              (λ m ns, is_Some (m !! ns)) add_alias_step
              (pr_aliases pr_sig) mf Hoa Hnda) as (sig & Hla & Hpa & Hva).
  exists sig. split.
  { unfold signature_from_proto. by rewrite Hlf. }
  split; [|split].
  - intros ns. rewrite Hpa, Hpf. unfold names. split.
    + intros [[H|[short H]]|[short H]].
      * rewrite lookup_empty in H. by destruct H.
      * exists short. apply elem_of_app. by left.
      * exists short. apply elem_of_app. by right.
    + intros [short H]. apply elem_of_app in H as [H|H].
      * left. right. by exists short.
      * right. by exists short.
  - intros ns f v.
    rewrite (keyed_loop_frame add_alias (λ m, fun_view m ns f)
               (pr_aliases pr_sig) mf sig (add_alias_frame ns f) Hla).
    rewrite Hvf. split.
    + intros [H|[_ H]]; [done|].
      unfold fun_view in H. by rewrite lookup_empty in H.
    + intros H. by left.
  - intros ns a v. rewrite Hva. split.
    + intros [H|[_ H]]; [done|].
      rewrite (keyed_loop_frame add_function (λ m, alias_view m ns a)
                 (pr_functions pr_sig) ∅ mf (add_function_frame ns a) Hlf) in H.
      unfold alias_view in H. by rewrite lookup_empty in H.
    + intros H. by left.
Qed.

(** C5 (amended): for a response whose function names are pairwise
    distinct, whose alias names are pairwise distinct and whose every
    name holds exactly one [/], parsing returns a registry; each
    namespace of an entry has one record in it, which holds exactly the
    functions and aliases sent under that namespace, each filed under
    the part of its name after the [/]; and a response listing the same
    entries in another order parses to the same registry. *)
Theorem signature_from_proto_merges (pr_sig : ListFunctionsResponse) :
  Forall one_separator (names pr_sig) →
  NoDup (pr_functions pr_sig).*1 → NoDup (pr_aliases pr_sig).*1 →
  ∃ sig, signature_from_proto pr_sig = Ok sig
    ∧ merged pr_sig sig
    ∧ ∀ pr_sig', pr_functions pr_sig' ≡ₚ pr_functions pr_sig →
        pr_aliases pr_sig' ≡ₚ pr_aliases pr_sig →
        signature_from_proto pr_sig' = Ok sig.
Proof.
  intros Hone Hndf Hnda.
  destruct (signature_from_proto_merged pr_sig Hone Hndf Hnda) as (sig & Hs & Hm).
  exists sig. split; [done|]. split; [done|].
  intros pr_sig' Pf Pa.
  destruct (signature_from_proto_merged pr_sig') as (sig' & Hs' & Hm').
  - unfold names in *. by rewrite Pf, Pa.
  - by rewrite Pf.
  - by rewrite Pa.
  - rewrite Hs'. f_equal. eapply merged_unique; [|done].
    by eapply merged_perm.
Qed.

End Merge.

(** ** The stub cache *)
Section StubCache.

Context {collab : Collaborators}.

Lemma isinstance_spec stub stub_t :
  isinstance stub stub_t = true ↔ stub_class stub = stub_t.
Proof. unfold isinstance. destruct (stub_class stub), stub_t; naive_solver. Qed.

Lemma _stubs_set_next_id self f w : _stubs self (set_next_id f w) = _stubs self w.
Proof. done. Qed.

Lemma _stubs_set_events self f w : _stubs self (set_events f w) = _stubs self w.
Proof. done. Qed.

Lemma _stubs_store self m w :
  _stubs self (set_client_stubs (<[client_id self := m]>) w) = m.
Proof. unfold _stubs. simpl. by rewrite lookup_insert_eq. Qed.

(** A miss: the stub is built, given the next identity, and stored. *)
Lemma _stub_gen_miss self key stub_t w :
  _stubs self w !! key = None →
  let stub := mkStub (next_id w) stub_t (_channel self) in
  _stub_gen self key stub_t w
  = (Ok stub,
     set_client_stubs (<[client_id self := <[key := stub]> (_stubs self w)]>)
       (set_next_id S w)).
Proof.
  intros Hmiss stub. unfold _stub_gen, bind, get_world, Stub_new, fresh, bind,
    get_world, modify, ret. simpl. rewrite Hmiss. simpl.
  rewrite _stubs_store, lookup_insert_eq.
  replace (isinstance _ stub_t) with true; [done|].
  symmetry. by apply isinstance_spec.
Qed.

(** A hit: the cached stub is handed back and nothing changes. *)
Lemma _stub_gen_hit self key stub_t w stub :
  _stubs self w !! key = Some stub →
  _stub_gen self key stub_t w
  = (if isinstance stub stub_t then Ok stub else Err AssertionError, w).
Proof.
  intros Hhit. unfold _stub_gen, bind, get_world, ret, raise. simpl.
  rewrite Hhit. simpl. rewrite Hhit. by destruct (isinstance stub stub_t).
Qed.

(** No access evicts or replaces an entry of a cache, its own or
    another client's. *)
Lemma _stub_gen_keeps self key stub_t w i key' stub :
  cached w i key' = Some stub →
  cached (_stub_gen self key stub_t w).2 i key' = Some stub.
Proof.
  intros Hk. destruct (_stubs self w !! key) as [other|] eqn:Hc.
  - by rewrite (_stub_gen_hit _ _ _ _ _ Hc).
  - rewrite (_stub_gen_miss _ _ _ _ Hc). unfold cached in *. simpl.
    destruct (decide (client_id self = i)) as [<-|Hne].
    + rewrite lookup_insert_eq. simpl.
      rewrite lookup_insert_ne; [done|]. intros ->.
      unfold _stubs in Hc. congruence.
    + by rewrite lookup_insert_ne.
Qed.

End StubCache.

(** ** The task lifecycle client *)
Section Lifecycle.

Context {collab : Collaborators}.

Lemma bind_Ok {A B} (m : M A) (k : A → M B) w a w' :
  m w = (Ok a, w') → bind m k w = k a w'.
Proof. unfold bind. by intros ->. Qed.

Lemma bind_Err {A B} (m : M A) (k : A → M B) w e w' :
  m w = (Err e, w') → bind m k w = (Err e, w').
Proof. unfold bind. by intros ->. Qed.

(** The conversion loop stops at the first input without a typed form. *)
Lemma convert_inputs_stop pre key val post inputs :
  Forall (λ item, is_Some (from_python item.2)) pre →
  from_python val = None →
  for_each convert_input (pre ++ (key, val) :: post) inputs
  = Err (InputConversionError key val).
Proof.
  intros Hpre Hval. revert inputs.
  induction Hpre as [|[k v] rest [tv Hv] _ IH]; intros inputs; simpl.
  - unfold convert_input. simpl. by rewrite Hval.
  - unfold convert_input at 1. simpl in *. rewrite Hv. simpl. apply IH.
Qed.

(** C2: when some input has no typed-value form, [start_task] raises
    [InputConversionError] with the key and value of the first such
    input in iteration order, and the world is left as it was: no stub
    is built and no request is sent. *)
Theorem start_task_unconvertible (self : RuntimeClient) (graph : TierkreisGraph)
    (pre post : list (string * PyObj)) (key : string) (val : PyObj) (w : World) :
  Forall (λ item, is_Some (from_python item.2)) pre →
  from_python val = None →
  start_task self graph (pre ++ (key, val) :: post) w
  = (Err (InputConversionError key val), w).
Proof.
  intros Hpre Hval. unfold start_task.
  apply bind_Err. unfold lift. by rewrite convert_inputs_stop.
Qed.

(** C4: whatever message the server sends back for the run request,
    [start_task] returns the handle of the task identifier when the
    [result] group selects [task_id], and otherwise raises
    [TierkreisTypeErrors] built from the message's [type_errors]: from
    the very errors the message carries when the group selects them,
    from the empty default when no field of the group is set.  A handle
    is returned only in the first case, so no call ends without either
    a task identifier or an exception. *)
Theorem start_task_response (self : RuntimeClient) (graph : TierkreisGraph)
    (py_inputs : list (string * PyObj)) (inputs : gmap string TierkreisValue)
    (stub : Stub) (decoded : RunTaskResponse) (w w1 w2 : World) :
  for_each convert_input py_inputs ∅ = Ok inputs →
  _runtime_stub self w = (Ok stub, w1) →
  RuntimeStub_run_task stub (graph_to_proto graph)
    (mkStructValueProto (to_proto_dict inputs)) w1 = (Ok decoded, w2) →
  start_task self graph py_inputs w
  = (if decide ((which_one_of_result decoded).1 = "task_id")
     then Ok (mkTaskHandle (get_task_id decoded))
     else Err (TierkreisTypeErrors
                 (type_errors_from_proto (get_type_errors decoded))),
     w2)
  ∧ (∀ tid, decoded = ResultTaskId tid →
       start_task self graph py_inputs w = (Ok (mkTaskHandle tid), w2))
  ∧ (∀ errs, decoded = ResultTypeErrors errs →
       start_task self graph py_inputs w
       = (Err (TierkreisTypeErrors (type_errors_from_proto errs)), w2))
  ∧ (decoded = ResultUnset →
       start_task self graph py_inputs w
       = (Err (TierkreisTypeErrors (type_errors_from_proto no_type_errors)), w2))
  ∧ (∀ handle, (start_task self graph py_inputs w).1 = Ok handle →
       decoded = ResultTaskId (task_id handle)).
Proof.
  intros Hconv Hstub Hreply.
  assert (start_task self graph py_inputs w
          = (if decide ((which_one_of_result decoded).1 = "task_id")
             then Ok (mkTaskHandle (get_task_id decoded))
             else Err (TierkreisTypeErrors
                         (type_errors_from_proto (get_type_errors decoded))),
             w2)) as Heq.
  { unfold start_task.
    rewrite (bind_Ok _ _ w inputs w); [|unfold lift; by rewrite Hconv].
    rewrite (bind_Ok _ _ _ _ _ Hstub), (bind_Ok _ _ _ _ _ Hreply).
    by destruct decoded. }
  split; [done|]. rewrite Heq.
  split; [by intros tid ->|]. split; [by intros errs ->|]. split; [by intros ->|].
  intros handle. simpl.
  destruct decoded; simpl; [done| |done]. by intros [= <-].
Qed.


(** [status_name is (None or "")]: [None or ""] is the empty string,
    and a string is that object exactly when it is empty. *)
Lemma py_is_empty_literal s :
  py_is (PyStr s) (py_or PyNone (PyStr "")) = String.eqb s "".
Proof.
  unfold py_or. simpl. destruct (String.eqb s "") eqn:E; simpl; [|done].
  apply String.eqb_eq in E as ->. done.
Qed.

Lemma which_one_of_status_empty t :
  (which_one_of_status t).1 = "" ↔ status t = StatusUnset.
Proof. unfold which_one_of_status. by destruct (status t). Qed.

Lemma record_status_eq result t :
  record_status result t
  = <[mkTaskHandle (id t) :=
        if String.eqb (which_one_of_status t).1 "" then "running"
        else (which_one_of_status t).1]> result.
Proof.
  unfold record_status. destruct (which_one_of_status t) as [name value].
  by rewrite py_is_empty_literal.
Qed.

Lemma record_status_labels result t :
  map_Forall (λ _ label, label ≠ "") result →
  map_Forall (λ _ label, label ≠ "") (record_status result t).
Proof.
  intros Hres. rewrite record_status_eq. apply map_Forall_insert_2; [|done].
  destruct (String.eqb (which_one_of_status t).1 "") eqn:E; [done|].
  by apply String.eqb_neq in E.
Qed.

Lemma foldl_record_status_labels l result :
  map_Forall (λ _ label, label ≠ "") result →
  map_Forall (λ _ label, label ≠ "") (foldl record_status result l).
Proof.
  revert result. induction l as [|t rest IH]; intros result H; simpl; [done|].
  by apply IH, record_status_labels.
Qed.

Lemma foldl_record_status_other l result i :
  Forall (λ u, id u ≠ i) l →
  foldl record_status result l !! mkTaskHandle i = result !! mkTaskHandle i.
Proof.
  intros Hl. revert result.
  induction Hl as [|u rest Hu _ IH]; intros result; simpl; [done|].
  rewrite IH, record_status_eq. apply lookup_insert_ne. by intros [= ?].
Qed.

(** C1 (amended): in the mapping [list_tasks] returns, an entry of the
    response whose [status] discriminator is empty (which is how an
    absent one is reported) and whose task id no later entry repeats has
    the label ["running"] under its handle, and no handle has an empty
    label. *)
Theorem list_tasks_default_running (self : RuntimeClient) (stub : Stub)
    (decoded : ListTasksResponse) (w w1 w2 : World)
    (pre post : list Task) (t : Task) :
  _runtime_stub self w = (Ok stub, w1) →
  RuntimeStub_list_tasks stub w1 = (Ok decoded, w2) →
  tasks decoded = pre ++ t :: post →
  (which_one_of_status t).1 = "" →
  Forall (λ u, id u ≠ id t) post →
  ∃ result, list_tasks self w = (Ok result, w2)
    ∧ result !! mkTaskHandle (id t) = Some "running"
    ∧ ∀ handle label, result !! handle = Some label → label ≠ "".
Proof.
  intros Hstub Hreply Htasks Hempty Hlast.
  exists (foldl record_status ∅ (tasks decoded)). split; [|split].
  - unfold list_tasks.
    by rewrite (bind_Ok _ _ _ _ _ Hstub), (bind_Ok _ _ _ _ _ Hreply).
  - rewrite Htasks, foldl_app. simpl.
    rewrite foldl_record_status_other by done.
    rewrite record_status_eq, Hempty. simpl. apply lookup_insert_eq.
  - intros handle label Hl.
    by apply (foldl_record_status_labels (tasks decoded) ∅ (map_Forall_empty _)
                handle label).
Qed.

(** *** What a call does to the transport *)

Lemma extends_refl w : extends w w.
Proof.
  exists []. rewrite app_nil_r. split; [done|]. split; [constructor|]. done.
Qed.

Lemma extends_trans w1 w2 w3 : extends w1 w2 → extends w2 w3 → extends w1 w3.
Proof.
  intros (n1 & He1 & Hs1 & Hl1 & Hk1 & Hv1 & Hn1 & Hc1)
         (n2 & He2 & Hs2 & Hl2 & Hk2 & Hv2 & Hn2 & Hc2).
  exists (n1 ++ n2). rewrite He2, He1, app_assoc. split; [done|]. split.
  - apply Forall_app. split; [done|]. by rewrite <- Hl1.
  - split; [congruence|]. split; [congruence|]. split; [congruence|].
    split; [lia|]. intros i key stub H. by apply Hc2, Hc1.
Qed.

Lemma only_sends_ret {A} (a : A) : only_sends (ret a).
Proof. intros w. apply extends_refl. Qed.

Lemma only_sends_raise {A} e : only_sends (raise (A := A) e).
Proof. intros w. apply extends_refl. Qed.

Lemma only_sends_lift {A} (r : Result A) : only_sends (lift r).
Proof. intros w. apply extends_refl. Qed.

Lemma only_sends_bind {A B} (m : M A) (k : A → M B) :
  only_sends m → (∀ a, only_sends (k a)) → only_sends (bind m k).
Proof.
  intros Hm Hk w. unfold bind. specialize (Hm w).
  destruct (m w) as [[a|e] w'] eqn:E; simpl in *; [|done].
  eapply extends_trans; [done|]. apply Hk.
Qed.

Lemma _stub_gen_world self key stub_t w :
  ∃ f g, (_stub_gen self key stub_t w).2 = set_client_stubs f (set_next_id g w).
Proof.
  destruct (_stubs self w !! key) as [cached|] eqn:Hc.
  - rewrite (_stub_gen_hit _ _ _ _ _ Hc). exists (λ m, m), (λ n, n). by destruct w.
  - rewrite (_stub_gen_miss _ _ _ _ Hc). eauto.
Qed.

Lemma _stub_gen_next_id self key stub_t w :
  (next_id w ≤ next_id (_stub_gen self key stub_t w).2)%nat.
Proof.
  destruct (_stubs self w !! key) as [cached|] eqn:Hc.
  - by rewrite (_stub_gen_hit _ _ _ _ _ Hc).
  - rewrite (_stub_gen_miss _ _ _ _ Hc). simpl. lia.
Qed.

Lemma only_sends_stub_gen self key stub_t : only_sends (_stub_gen self key stub_t).
Proof.
  intros w. exists [].
  pose proof (λ i key' stub, _stub_gen_keeps self key stub_t w i key' stub) as Hkeep.
  pose proof (_stub_gen_next_id self key stub_t w) as Hnext.
  destruct (_stub_gen_world self key stub_t w) as (f & g & Hw).
  rewrite Hw in *. simpl. rewrite app_nil_r.
  split; [done|]. split; [constructor|]. done.
Qed.

(** A unary call appends one event: the request, with the metadata the
    channel's listeners gave it. *)
Lemma unary_call_eq {A} ch req (reply : Server → list Event → Result A) w :
  let ev := RequestSent ch (stamped_metadata (listeners w) ch) req in
  unary_call ch req reply w
  = (reply (server w) (events w ++ [ev]), set_events (λ evs, evs ++ [ev]) w).
Proof. done. Qed.

Lemma only_sends_unary_call {A} ch req (reply : Server → list Event → Result A) :
  only_sends (unary_call ch req reply).
Proof.
  intros w. rewrite unary_call_eq. simpl.
  eexists [_]. simpl. split; [done|]. split; [by repeat constructor|]. done.
Qed.

Lemma only_sends_start_task self graph py_inputs :
  only_sends (start_task self graph py_inputs).
Proof.
  unfold start_task. apply only_sends_bind; [apply only_sends_lift|].
  intros inputs. apply only_sends_bind; [apply only_sends_stub_gen|].
  intros stub. apply only_sends_bind; [apply only_sends_unary_call|].
  intros decoded. destruct (which_one_of_result decoded) as [name value].
  destruct (String.eqb name "task_id");
    [apply only_sends_ret|apply only_sends_raise].
Qed.

Lemma only_sends_await_task self handle : only_sends (await_task self handle).
Proof.
  unfold await_task. apply only_sends_bind; [apply only_sends_stub_gen|].
  intros stub. apply only_sends_bind; [apply only_sends_unary_call|].
  intros decoded. destruct (which_one_of_status (task decoded)) as [name value].
  destruct (negb (String.eqb name "success")); [apply only_sends_raise|].
  destruct value; try apply only_sends_raise.
  destruct (from_proto_dict (sv_map v));
    [apply only_sends_ret|apply only_sends_raise].
Qed.

Lemma only_sends_list_tasks self : only_sends (list_tasks self).
Proof.
  unfold list_tasks. apply only_sends_bind; [apply only_sends_stub_gen|].
  intros stub. apply only_sends_bind; [apply only_sends_unary_call|].
  intros decoded. apply only_sends_ret.
Qed.

Lemma only_sends_delete_task self handle : only_sends (delete_task self handle).
Proof.
  unfold delete_task. apply only_sends_bind; [apply only_sends_stub_gen|].
  intros stub. apply only_sends_unary_call.
Qed.

Lemma only_sends_get_signature self : only_sends (get_signature self).
Proof.
  unfold get_signature. apply only_sends_bind; [apply only_sends_stub_gen|].
  intros stub. apply only_sends_bind; [apply only_sends_unary_call|].
  intros pr_sig. apply only_sends_lift.
Qed.

Lemma only_sends_run_graph self graph py_inputs :
  only_sends (run_graph self graph py_inputs).
Proof.
  unfold run_graph. apply only_sends_bind; [apply only_sends_start_task|].
  intros handle. apply only_sends_bind; [apply only_sends_await_task|].
  intros outputs. apply only_sends_ret.
Qed.

Lemma only_sends_type_check_graph self graph :
  only_sends (type_check_graph self graph).
Proof.
  unfold type_check_graph. apply only_sends_bind; [apply only_sends_lift|].
  intros value. apply only_sends_bind; [apply only_sends_stub_gen|].
  intros stub. apply only_sends_bind; [apply only_sends_unary_call|].
  intros response. destruct (which_one_of_response response) as [name message].
  destruct (String.eqb name "success"), message as [|success|errors];
    try apply only_sends_raise.
  - destruct (graph_is_none (its_value success)); [apply only_sends_raise|].
    destruct (graph_from_value_proto (its_value success));
      [apply only_sends_ret|apply only_sends_raise].
  - destruct type_errors_from_none; apply only_sends_raise.
Qed.

Lemma only_sends_perform {X} self (call : ClientCall X) :
  only_sends (perform self call).
Proof.
  destruct call; simpl.
  - apply only_sends_get_signature.
  - apply only_sends_start_task.
  - apply only_sends_list_tasks.
  - apply only_sends_await_task.
  - apply only_sends_delete_task.
  - apply only_sends_run_graph.
  - apply only_sends_type_check_graph.
Qed.

(** *** What a handler does to the transport *)

Lemma fits_mono ls n n' ev : (n' ≤ n)%nat → fits ls n ev → fits ls n' ev.
Proof. intros Hle. destruct ev; simpl; [lia|done|lia]. Qed.

Lemma sent_through_fits ls n ev : sent_through ls ev → fits ls n ev.
Proof. by destruct ev. Qed.

Lemma traffic_refl w : traffic w w.
Proof.
  exists []. rewrite app_nil_r. split; [done|]. split; [constructor|]. done.
Qed.

Lemma traffic_trans w1 w2 w3 : traffic w1 w2 → traffic w2 w3 → traffic w1 w3.
Proof.
  intros (n1 & He1 & Hs1 & Hl1 & Hk1 & Hv1 & Hn1)
         (n2 & He2 & Hs2 & Hl2 & Hk2 & Hv2 & Hn2).
  exists (n1 ++ n2). rewrite He2, He1, app_assoc. split; [done|]. split.
  - apply Forall_app. split; [done|]. rewrite <- Hl1.
    eapply Forall_impl; [exact Hs2|]. intros ev. by apply fits_mono.
  - split; [congruence|]. split; [congruence|]. split; [congruence|]. lia.
Qed.

Lemma extends_traffic w w' : extends w w' → traffic w w'.
Proof.
  intros (new & He & Hs & Hl & Hk & Hv & Hn & _).
  exists new. split; [done|]. split; [|done].
  eapply Forall_impl; [exact Hs|]. intros ev. apply sent_through_fits.
Qed.

(** [run_graph_block], step by step: the channel and the client take
    the next two identities, [run_graph] runs on that client, and the
    channel is closed behind it. *)
Lemma run_graph_block_eq self graph py_inputs w :
  let channel :=
    mkChannel (next_id w) (_host (_channel self)) (_port (_channel self)) in
  let client := mkRuntimeClient (S (next_id w)) channel in
  let w_start :=
    mkWorld (events w ++ [ChannelOpened channel]) (listeners w)
            (<[S (next_id w) := ∅]> (client_stubs w)) (S (S (next_id w)))
            (keyring w) (server w) in
  run_graph_block self graph py_inputs w
  = ((run_graph client graph py_inputs w_start).1,
     set_events (λ evs, evs ++ [ChannelClosed channel])
       (run_graph client graph py_inputs w_start).2).
Proof.
  intros channel client w_start.
  unfold run_graph_block, async_to_sync.
  unfold bind at 1. unfold Channel_new, fresh, bind, get_world, modify, ret.
  simpl. fold channel.
  unfold finally, RuntimeClient_new, fresh, bind, get_world, modify, ret. simpl.
  fold client.
  change (set_client_stubs _ _) with w_start.
  by destruct (run_graph client graph py_inputs w_start) as [r w_end].
Qed.

Lemma run_graph_block_traffic self graph py_inputs w :
  traffic w (run_graph_block self graph py_inputs w).2.
Proof.
  rewrite run_graph_block_eq. simpl.
  set (channel := mkChannel (next_id w) _ _).
  set (client := mkRuntimeClient _ channel).
  set (w_start := mkWorld _ _ _ _ _ _).
  destruct (only_sends_run_graph client graph py_inputs w_start)
    as (sent & He & Hs & Hl & Hk & Hv & Hn & _).
  exists ([ChannelOpened channel] ++ sent ++ [ChannelClosed channel]).
  simpl in *. rewrite He. split; [by rewrite <- !app_assoc|]. split.
  - apply Forall_cons. split; [simpl; lia|].
    apply Forall_app. split.
    + eapply Forall_impl; [exact Hs|]. intros ev. apply sent_through_fits.
    + apply Forall_cons. split; [simpl; lia|constructor].
  - split; [done|]. split; [done|]. split; [done|]. lia.
Qed.

Lemma run_coroutine_traffic {R} (c : Coroutine R) w :
  traffic w (run_coroutine c w).2.
Proof.
  revert w. induction c as [r|e|X self call k IH|self graph py_inputs k IH];
    intros w; simpl.
  - apply traffic_refl.
  - apply traffic_refl.
  - pose proof (extends_traffic _ _ (only_sends_perform self call w)) as Hp.
    destruct (perform self call w) as [r w'] eqn:E. simpl in Hp.
    eapply traffic_trans; [done|]. apply IH.
  - pose proof (run_graph_block_traffic self graph py_inputs w) as Hp.
    destruct (run_graph_block self graph py_inputs w) as [r w'] eqn:E.
    simpl in Hp. eapply traffic_trans; [done|]. apply IH.
Qed.


(** *** The stub cache persists *)

Lemma later_world_keeps w w' i key stub :
  later_world w w' → cached w i key = Some stub → cached w' i key = Some stub.
Proof.
  intros Hlater Hk. induction Hlater as [|w' self key' stub_t _ IH|w' X self call _ IH].
  - done.
  - by apply _stub_gen_keeps.
  - destruct (only_sends_perform self call w') as (_ & _ & _ & _ & _ & _ & _ & Hc).
    by apply Hc.
Qed.

(** C9: the stub cache is insert-if-absent.  The first access to a key
    builds a stub and stores it under the key; after any further
    activity (stub accesses to any keys, client calls) an access to the
    same key hands back that very stub and changes nothing; and an
    access to one key leaves what is cached under every other key as it
    was. *)
Theorem stub_cache_insert_if_absent (self : RuntimeClient) (key : string)
    (stub_t : StubClass) (w : World) :
  _stubs self w !! key = None →
  let stub := mkStub (next_id w) stub_t (_channel self) in
  let w1 := (_stub_gen self key stub_t w).2 in
  (_stub_gen self key stub_t w).1 = Ok stub
  ∧ _stubs self w1 = <[key := stub]> (_stubs self w)
  ∧ (∀ w2, later_world w1 w2 → _stub_gen self key stub_t w2 = (Ok stub, w2))
  ∧ (∀ key' stub_t' w0, key' ≠ key →
       _stubs self (_stub_gen self key' stub_t' w0).2 !! key
       = _stubs self w0 !! key).
Proof.
  intros Hmiss stub w1. subst w1.
  rewrite (_stub_gen_miss _ _ _ _ Hmiss). simpl. fold stub.
  split; [done|]. split; [by rewrite _stubs_store|]. split.
  - intros w2 Hlater.
    assert (_stubs self w2 !! key = Some stub) as Hk.
    { apply (later_world_keeps _ _ _ _ _ Hlater).
      unfold cached. simpl. rewrite lookup_insert_eq. apply lookup_insert_eq. }
    rewrite (_stub_gen_hit _ _ _ _ _ Hk).
    replace (isinstance stub stub_t) with true; [done|].
    symmetry. by apply isinstance_spec.
  - intros key' stub_t' w0 Hne.
    destruct (_stubs self w0 !! key') as [other|] eqn:Hc.
    + by rewrite (_stub_gen_hit _ _ _ _ _ Hc).
    + rewrite (_stub_gen_miss _ _ _ _ Hc). simpl. rewrite _stubs_store.
      by rewrite lookup_insert_ne.
Qed.

Lemma _stub_gen_events self key stub_t w :
  events (_stub_gen self key stub_t w).2 = events w.
Proof. by destruct (_stub_gen_world self key stub_t w) as (f & g & ->). Qed.

(** [start_task] sends nothing or one run request. *)
Lemma start_task_events self graph py_inputs w :
  ∃ sent, events (start_task self graph py_inputs w).2 = events w ++ sent
    ∧ (sent = [] ∨ ∃ ch md gp ip, sent = [RequestSent ch md (ReqRunTask gp ip)]).
Proof.
  unfold start_task, bind at 1, lift.
  destruct (for_each convert_input py_inputs ∅) as [inputs|e].
  2: { exists []. rewrite app_nil_r. by split; [|left]. }
  unfold bind at 1. pose proof (_stub_gen_events self "runtime" RuntimeStub w) as Hev.
  unfold _runtime_stub.
  destruct (_stub_gen self "runtime" RuntimeStub w) as [[stub|e] w1]; simpl in Hev.
  2: { exists []. simpl. rewrite app_nil_r. by split; [|left]. }
  unfold bind, RuntimeStub_run_task. rewrite unary_call_eq.
  eexists [_]. split; [|right; eauto].
  destruct (reply_run_task _ _) as [decoded|e]; simpl; [|by rewrite Hev].
  destruct decoded; simpl; by rewrite Hev.
Qed.

(** [await_task] sends nothing or one await request. *)
Lemma await_task_events self handle w :
  ∃ sent, events (await_task self handle w).2 = events w ++ sent
    ∧ (sent = [] ∨ ∃ ch md tid, sent = [RequestSent ch md (ReqAwaitTask tid)]).
Proof.
  unfold await_task, bind at 1.
  pose proof (_stub_gen_events self "runtime" RuntimeStub w) as Hev.
  unfold _runtime_stub.
  destruct (_stub_gen self "runtime" RuntimeStub w) as [[stub|e] w1]; simpl in Hev.
  2: { exists []. simpl. rewrite app_nil_r. by split; [|left]. }
  unfold bind, RuntimeStub_await_task. rewrite unary_call_eq.
  eexists [_]. split; [|right; eauto].
  destruct (reply_await_task _ _) as [decoded|e]; simpl; [|by rewrite Hev].
  unfold which_one_of_status.
  destruct (status (task decoded)) as [|result|error]; simpl; try by rewrite Hev.
  destruct (from_proto_dict (sv_map result)); simpl; by rewrite Hev.
Qed.

(** C6: [run_graph] is [start_task] followed by [await_task] on the
    handle it returned: the outcome and the final world are those of the
    composition, an exception of either stage being the outcome as it
    was raised; and over the whole call at most one run request and then
    at most one await request leave, so nothing is tried twice. *)
Theorem run_graph_composition (self : RuntimeClient) (graph : TierkreisGraph)
    (py_inputs : list (string * PyObj)) (w : World) :
  run_graph self graph py_inputs w = run_graph_spec self graph py_inputs w
  ∧ ∃ sent_start sent_await,
      events (run_graph self graph py_inputs w).2
      = events w ++ sent_start ++ sent_await
      ∧ (sent_start = []
         ∨ ∃ ch md gp ip, sent_start = [RequestSent ch md (ReqRunTask gp ip)])
      ∧ (sent_await = []
         ∨ ∃ ch md tid, sent_await = [RequestSent ch md (ReqAwaitTask tid)]).
Proof.
  assert (run_graph self graph py_inputs w = run_graph_spec self graph py_inputs w)
    as Heq.
  { unfold run_graph, run_graph_spec, bind, ret.
    destruct (start_task self graph py_inputs w) as [[handle|e] w1]; [|done].
    by destruct (await_task self handle w1) as [[outputs|e] w2]. }
  split; [done|]. rewrite Heq. unfold run_graph_spec.
  destruct (start_task_events self graph py_inputs w) as (s1 & He1 & Hs1).
  destruct (start_task self graph py_inputs w) as [[handle|e] w1]; simpl in He1.
  - destruct (await_task_events self handle w1) as (s2 & He2 & Hs2).
    exists s1, s2. split; [|done].
    destruct (await_task self handle w1) as [[outputs|e] w2]; simpl in *;
      by rewrite He2, He1, app_assoc.
  - exists s1, []. simpl. rewrite app_nil_r. split; [done|]. split; [done|by left].
Qed.

End Lifecycle.

(** ** The worker callback authenticator *)
Section Authenticator.

Context {collab : Collaborators}.

Lemma with_runtime_client_Ok {R} worker (func : Handler R) wrapped :
  with_runtime_client worker func = Ok wrapped → wrapped = wrapped_func worker func.
Proof.
  unfold with_runtime_client. case_decide; [|done]. by intros [= <-].
Qed.

(** C7: a call of a wrapped handler while the worker has no callback
    address raises [RuntimeError] and leaves the world as it was: no
    channel is opened, nothing is sent, the handler does not run. *)
Theorem wrapped_call_without_callback {R} (worker : Worker) (func : Handler R)
    (wrapped : list Arg → list (string * Arg) → M R)
    (args : list Arg) (kwargs : list (string * Arg)) (w : World) :
  with_runtime_client worker func = Ok wrapped →
  callback worker = None →
  wrapped args kwargs w
  = (Err (RuntimeError "Callback address has not been extracted from request."),
     w).
Proof.
  intros Hwrap Hcb. rewrite (with_runtime_client_Ok _ _ _ Hwrap).
  unfold wrapped_func. by rewrite Hcb.
Qed.

(** The injector writes both fields, whatever the metadata held. *)
Lemma _gen_auth_injector_stamps login pwd metadata :
  _gen_auth_injector login pwd metadata !! "token" = Some login
  ∧ _gen_auth_injector login pwd metadata !! "key" = Some pwd.
Proof.
  unfold _gen_auth_injector. split.
  - rewrite lookup_insert_ne by done. apply lookup_insert_eq.
  - apply lookup_insert_eq.
Qed.

(** A request over a channel whose last listener is the injector
    carries both fields. *)
Lemma stamped_metadata_injector ls ch ch' login pwd :
  chan_id ch' = chan_id ch →
  let md := stamped_metadata (ls ++ [(chan_id ch, _gen_auth_injector login pwd)]) ch' in
  md !! "token" = Some login ∧ md !! "key" = Some pwd.
Proof.
  intros Hid. unfold stamped_metadata. rewrite filter_app, fmap_app, foldl_app.
  rewrite Hid. rewrite filter_cons_True by done. simpl.
  apply _gen_auth_injector_stamps.
Qed.

(** C8: a call of a wrapped handler, the worker knowing its callback
    address (the precondition the authenticator checks first), opens a
    channel to that address and runs the handler with a fresh client
    bound to the channel put before its arguments; the outcome of the
    call is the outcome of the handler, and the channel is closed
    afterwards.  If the credential store holds both [token] and [key],
    the injector is registered on the channel first and every request
    that leaves over the channel while the handler runs carries both as
    metadata; if either is missing, no listener is registered, before
    the handler or while it runs, and no error is raised for it. *)
Theorem wrapped_call_authenticates {R} (worker : Worker) (func : Handler R)
    (wrapped : list Arg → list (string * Arg) → M R)
    (args : list Arg) (kwargs : list (string * Arg)) (w : World)
    (host : string) (port : Z) :
  with_runtime_client worker func = Ok wrapped →
  callback worker = Some (host, port) →
  let channel := mkChannel (next_id w) host port in
  let client := mkRuntimeClient (S (next_id w)) channel in
  let _token := keyring w !! (_KEYRING_SERVICE, "token") in
  let _key := keyring w !! (_KEYRING_SERVICE, "key") in
  ∃ w_start w_end sent,
    events w_start = events w ++ [ChannelOpened channel]
    ∧ listeners w_start
      = listeners w ++
        match _token, _key with
        | Some t, Some k => [(chan_id channel, _gen_auth_injector t k)]
        | _, _ => []
        end
    ∧ _stubs client w_start = ∅
    ∧ wrapped args kwargs w
      = ((run_coroutine (call_handler func (ArgClient client :: args) kwargs)
            w_start).1,
         set_events (λ evs, evs ++ [ChannelClosed channel]) w_end)
    ∧ w_end
      = (run_coroutine (call_handler func (ArgClient client :: args) kwargs)
           w_start).2
    ∧ events w_end = events w_start ++ sent
    ∧ listeners w_end = listeners w_start
    ∧ ∀ t k, _token = Some t → _key = Some k →
        ∀ ch md req, RequestSent ch md req ∈ sent → chan_id ch = chan_id channel →
          md !! "token" = Some t ∧ md !! "key" = Some k.
Proof.
  intros Hwrap Hcb channel client _token _key.
  rewrite (with_runtime_client_Ok _ _ _ Hwrap).
  set (w_open := set_events (λ evs, evs ++ [ChannelOpened channel]) (set_next_id S w)).
  set (w_listen :=
    match _token, _key with
    | Some t, Some k =>
        set_listeners (λ ls, ls ++ [(chan_id channel, _gen_auth_injector t k)]) w_open
    | _, _ => w_open
    end).
  set (w_start := set_client_stubs (<[S (next_id w) := ∅]>) (set_next_id S w_listen)).
  set (body := run_coroutine (call_handler func (ArgClient client :: args) kwargs)).
  assert (next_id w_listen = S (next_id w)) as Hnext.
  { subst w_listen. by destruct _token, _key. }
  assert (wrapped_func worker func args kwargs w
          = ((body w_start).1,
             set_events (λ evs, evs ++ [ChannelClosed channel]) (body w_start).2))
    as Hrun.
  { unfold wrapped_func. rewrite Hcb.
    unfold bind at 1. unfold Channel_new, fresh, bind, get_world, modify, ret.
    simpl. fold channel. fold w_open.
    unfold finally, keyring_get_password, bind, get_world, ret. simpl.
    fold _token _key.
    assert ((match _token, _key with
             | Some t, Some k => listen channel (_gen_auth_injector t k)
             | _, _ => λ w : World, (Ok (), w)
             end) w_open = (Ok (), w_listen)) as ->.
    { subst w_listen. by destruct _token, _key. }
    unfold RuntimeClient_new, fresh, bind, get_world, modify, ret. simpl.
    rewrite Hnext. fold client. fold w_start. fold body.
    by destruct (body w_start) as [r w_end]. }
  pose proof (run_coroutine_traffic
                (call_handler func (ArgClient client :: args) kwargs) w_start)
    as (sent & Hev & Hsent & Hsame & _).
  fold body in Hev, Hsame.
  exists w_start, (body w_start).2, sent.
  split. { subst w_start w_listen w_open. by destruct _token, _key. }
  assert (listeners w_start
          = listeners w ++
            match _token, _key with
            | Some t, Some k => [(chan_id channel, _gen_auth_injector t k)]
            | _, _ => []
            end) as Hls.
  { subst w_start w_listen w_open.
    destruct _token, _key; simpl; by rewrite ?app_nil_r. }
  split; [done|].
  split. { subst w_start. unfold _stubs. simpl. by rewrite lookup_insert_eq. }
  split; [done|]. split; [done|]. split; [done|]. split; [done|].
  intros t k Ht Hk ch md req Hin Hid.
  rewrite Forall_forall in Hsent. specialize (Hsent _ Hin).
  unfold fits in Hsent. rewrite Hls, Ht, Hk in Hsent. subst md.
  by apply stamped_metadata_injector.
Qed.

End Authenticator.

(** * Further properties of the client module *)

(** ** Messages and addresses *)

Lemma string_app_nil s : "" +:+ s = s.
Proof. done. Qed.

Lemma string_app_cons c a s : String c a +:+ s = String c (a +:+ s).
Proof. done. Qed.

Lemma string_app_length a b :
  String.length (a +:+ b) = (String.length a + String.length b)%nat.
Proof.
  induction a as [|c a IH]; [done|].
  rewrite string_app_cons. simpl. by rewrite IH.
Qed.

Lemma string_app_inv_tail a b s : a +:+ s = b +:+ s → a = b.
Proof.
  revert b. induction a as [|c a IH]; intros [|d b] H;
    rewrite ?string_app_nil, ?string_app_cons in H.
  - done.
  - apply (f_equal String.length) in H. simpl in H.
    rewrite string_app_length in H. lia.
  - apply (f_equal String.length) in H. simpl in H.
    rewrite string_app_length in H. lia.
  - injection H as -> H. f_equal. by apply IH.
Qed.

Lemma string_app_inv_head s a b : s +:+ a = s +:+ b → a = b.
Proof.
  induction s as [|c s IH]; [done|].
  rewrite !string_app_cons. intros [= H]. by apply IH.
Qed.

Lemma string_app_assoc a b c : (a +:+ b) +:+ c = a +:+ (b +:+ c).
Proof.
  induction a as [|x a IH]; [done|].
  rewrite !string_app_cons. by rewrite IH.
Qed.

(** X15: The message of [InputConversionError] names the input: the name can
    be read back from it.  The two literals after the name are joined
    without a space. *)
Theorem InputConversionError_str_names_input :
  (∀ a b, InputConversionError_str a = InputConversionError_str b → a = b)
  ∧ (∀ a, InputConversionError_str a
          = "Input value with name " +:+ a
            +:+ " cannot beconverted to a TierkreisValue.").
Proof.
  split.
  - intros a b H. unfold InputConversionError_str in H.
    apply string_app_inv_head in H.
    rewrite <- !string_app_assoc in H.
    do 2 apply string_app_inv_tail in H. done.
  - intros a. reflexivity.
Qed.

Lemma py_int_str_inj n m : py_int_str n = py_int_str m → n = m.
Proof.
  unfold py_int_str. intros H.
  assert (∀ z, DecimalString.NilZero.int_of_string
                 (DecimalString.NilZero.string_of_int (Z.to_int z))
               = Some (Z.to_int z)) as Hback.
  { intros z. apply DecimalString.NilZero.isi; destruct z; simpl; try done;
      intros [= Hnil]; by apply DecimalPos.Unsigned.to_uint_nonnil in Hnil. }
  apply DecimalZ.to_int_inj.
  pose proof (Hback n) as Hn. rewrite H, Hback in Hn. by injection Hn.
Qed.

(** X16: [socket_address] determines host and port, provided the host holds
    no colon. *)
Theorem socket_address_inj (c1 c2 : RuntimeClient) :
  str_count ":" (_host (_channel c1)) = O →
  str_count ":" (_host (_channel c2)) = O →
  socket_address c1 = socket_address c2 →
  _host (_channel c1) = _host (_channel c2)
  ∧ _port (_channel c1) = _port (_channel c2).
Proof.
  intros H1 H2 Heq. unfold socket_address in Heq.
  apply (f_equal (str_split ":" 1)) in Heq.
  change (?h +:+ ":" +:+ ?p) with (h +:+ String ":" p) in Heq.
  rewrite !str_split_cut, !str_split_zero in Heq by done.
  injection Heq as Hh Hp. split; [done|]. by apply py_int_str_inj.
Qed.

(** ** The signature registry, continued *)
Section SignatureMore.

Context {collab : Collaborators}.

Lemma for_each_invariant {S X} (body : S → X → Result S) (P : S → Prop)
    (items : list X) (s s' : S) :
  (∀ s x s', P s → body s x = Ok s' → P s') →
  P s → for_each body items s = Ok s' → P s'.
Proof.
  intros Hstep. revert s. induction items as [|x rest IH]; intros s Hs; simpl.
  - by intros [= <-].
  - destruct (body s x) as [s1|e] eqn:Hb; simpl; [|done].
    apply IH. by eapply Hstep.
Qed.

(** X10: No key of the registry, namespace or short name, holds a separator. *)
Theorem signature_keys_hold_no_separator (pr_sig : ListFunctionsResponse)
    (sig : gmap string NamespaceDefs) :
  signature_from_proto pr_sig = Ok sig →
  ∀ ns defs, sig !! ns = Some defs →
    str_count slash ns = O
    ∧ (∀ f, is_Some (functions defs !! f) → str_count slash f = O)
    ∧ (∀ a, is_Some (aliases defs !! a) → str_count slash a = O).
Proof.
  set (clean := λ m : gmap string NamespaceDefs,
    ∀ ns defs, m !! ns = Some defs →
      str_count slash ns = O
      ∧ (∀ f, is_Some (functions defs !! f) → str_count slash f = O)
      ∧ (∀ a, is_Some (aliases defs !! a) → str_count slash a = O)).
  assert (clean ∅) as Hempty.
  { intros ns defs H. by rewrite lookup_empty in H. }
  assert (∀ m x m', clean m → add_function m x = Ok m' → clean m') as Hf.
  { intros m [name e] m' Hm. unfold add_function. simpl.
    destruct (split_name name) as [[ns0 f0]|err] eqn:Hs; simpl; [|done].
    apply split_name_Ok in Hs as (_ & Hn0 & Hf0).
    destruct (m !! ns0) as [d0|] eqn:Hm0; intros [= <-] ns defs;
      (destruct (decide (ns0 = ns)) as [<-|Hne];
        [rewrite lookup_insert_eq; intros [= <-]; simpl
        |rewrite lookup_insert_ne by done; apply Hm]).
    - destruct (Hm _ _ Hm0) as (_ & Hfs & Has).
      split; [done|]. split; [|done].
      intros f. destruct (decide (f0 = f)) as [<-|]; [done|].
      rewrite lookup_insert_ne by done. apply Hfs.
    - split; [done|]. split.
      + intros f. destruct (decide (f0 = f)) as [<-|]; [done|].
        rewrite lookup_singleton_ne by done. by intros [? ?].
      + intros a. rewrite lookup_empty. by intros [? ?]. }
  assert (∀ m x m', clean m → add_alias m x = Ok m' → clean m') as Ha.
  { intros m [name e] m' Hm. unfold add_alias. simpl.
    destruct (split_name name) as [[ns0 a0]|err] eqn:Hs; simpl; [|done].
    apply split_name_Ok in Hs as (_ & Hn0 & Ha0).
    destruct (m !! ns0) as [d0|] eqn:Hm0; intros [= <-] ns defs;
      (destruct (decide (ns0 = ns)) as [<-|Hne];
        [rewrite lookup_insert_eq; intros [= <-]; simpl
        |rewrite lookup_insert_ne by done; apply Hm]).
    - destruct (Hm _ _ Hm0) as (_ & Hfs & Has).
      split; [done|]. split; [done|].
      intros a. destruct (decide (a0 = a)) as [<-|]; [done|].
      rewrite lookup_insert_ne by done. apply Has.
    - split; [done|]. split.
      + intros f. rewrite lookup_empty. by intros [? ?].
      + intros a. destruct (decide (a0 = a)) as [<-|]; [done|].
        rewrite lookup_singleton_ne by done. by intros [? ?]. }
  unfold signature_from_proto.
  destruct (for_each add_function (pr_functions pr_sig) ∅) as [mf|e] eqn:Hlf;
    simpl; [|done].
  intros Hla. fold (clean sig).
  eapply (for_each_invariant add_alias clean); [exact Ha| |exact Hla].
  by eapply (for_each_invariant add_function clean); [exact Hf|exact Hempty|].
Qed.

Lemma split_name_bad name :
  ¬ one_separator name →
  split_name name
  = Err (ValueError (if decide (str_count slash name = O)
                     then "not enough values to unpack (expected 2, got 1)"
                     else "too many values to unpack (expected 2)")).
Proof.
  intros Hbad. unfold split_name, one_separator in *.
  pose proof (str_split_length slash 2 name) as Hlen.
  destruct (decide (str_count slash name = O)) as [H0|Hn0].
  - by rewrite str_split_no_sep.
  - destruct (str_split slash 2 name) as [|x [|y [|z rest]]];
      cbn [length] in Hlen; try done; exfalso; lia.
Qed.

Lemma for_each_stops {S X} (body : S → X → Result S) (pre post : list X)
    (x : X) (s : S) (e : exn) :
  (∀ s, body s x = Err e) →
  Forall (λ y, ∀ s, ∃ s', body s y = Ok s') pre →
  for_each body (pre ++ x :: post) s = Err e.
Proof.
  intros Hx Hpre. revert s. induction Hpre as [|y pre Hy _ IH]; intros s; simpl.
  - by rewrite Hx.
  - destruct (Hy s) as [s' ->]. simpl. apply IH.
Qed.

Lemma add_function_total m item :
  one_separator item.1 → ∃ m', add_function m item = Ok m'.
Proof.
  intros H. pose proof (add_function_cases m item) as Hc.
  destruct (add_function m item) as [m'|e]; [eauto|]. by destruct Hc.
Qed.

Lemma add_alias_total m item :
  one_separator item.1 → ∃ m', add_alias m item = Ok m'.
Proof.
  intros H. pose proof (add_alias_cases m item) as Hc.
  destruct (add_alias m item) as [m'|e]; [eauto|]. by destruct Hc.
Qed.

(** X11: The first name without exactly one separator, functions before
    aliases, decides the failure: [ValueError] with the message of too
    few values (two expected, one got) when it holds no separator, and
    with the message of too many values when it holds two or more. *)
Theorem signature_first_bad_name (pr_sig : ListFunctionsResponse)
    (pre post : list string) (name : string) :
  names pr_sig = pre ++ name :: post →
  Forall one_separator pre →
  ¬ one_separator name →
  signature_from_proto pr_sig
  = Err (ValueError (if decide (str_count slash name = O)
                     then "not enough values to unpack (expected 2, got 1)"
                     else "too many values to unpack (expected 2)")).
Proof.
  intros Hnames Hpre Hbad. unfold signature_from_proto, names in *.
  destruct pr_sig as [fs als]. simpl in *.
  destruct (decide (length pre < length fs)%nat) as [Hlt|Hge].
  - (* the name is a function's *)
    assert (fs.*1 = pre ++ name :: take (length fs - S (length pre)) post) as Hfs.
    { apply (f_equal (take (length fs))) in Hnames.
      rewrite take_app_length' in Hnames by (by rewrite length_fmap).
      rewrite Hnames, take_app_ge by lia.
      f_equal. replace (length fs - length pre)%nat
        with (S (length fs - S (length pre))) by lia. done. }
    apply fmap_app_inv in Hfs as (fpre & frest & -> & Hrest & ->).
    destruct frest as [|[n e] fpost]; [done|]. simpl in Hrest.
    injection Hrest as <- _.
    rewrite (for_each_stops add_function fpre fpost (name, e) ∅
               (ValueError (if decide (str_count slash name = O)
                            then "not enough values to unpack (expected 2, got 1)"
                            else "too many values to unpack (expected 2)"))).
    + done.
    + intros m. unfold add_function. simpl. by rewrite split_name_bad.
    + rewrite Forall_fmap in Hpre.
      eapply Forall_impl; [exact Hpre|]. intros item Hi m.
      by apply add_function_total.
  - (* every function name is fine; the name is an alias's *)
    assert (pre = fs.*1 ++ take (length pre - length fs) als.*1
            ∧ drop (length pre - length fs) als.*1 = name :: post) as [Hp Hd].
    { remember (length pre) as n eqn:Hn. split.
      - apply (f_equal (take n)) in Hnames.
        rewrite Hn, take_app_length, <- Hn in Hnames. rewrite <- Hnames.
        rewrite take_app_ge by (rewrite length_fmap; lia).
        by rewrite length_fmap.
      - apply (f_equal (drop n)) in Hnames.
        rewrite Hn, drop_app_length, <- Hn in Hnames. rewrite <- Hnames.
        rewrite drop_app_ge by (rewrite length_fmap; lia).
        by rewrite length_fmap. }
    rewrite Hp in Hpre. apply Forall_app in Hpre as [Hfok Haok].
    rewrite Forall_fmap in Hfok.
    assert (∃ mf, for_each add_function fs ∅ = Ok mf) as [mf ->].
    { pose proof (for_each_cases add_function (λ x, one_separator x.1)
        (λ e, ∃ msg, e = ValueError msg) fs ∅ add_function_cases) as Hc.
      destruct (for_each add_function fs ∅) as [mf|e]; [eauto|].
      destruct Hc as [_ Hex]. apply Exists_exists in Hex as (x & Hx & Hnx).
      rewrite Forall_forall in Hfok. exfalso. apply Hnx. exact (Hfok x Hx). }
    simpl.
    rewrite <- (take_drop (length pre - length fs) als).
    rewrite <- fmap_take in Haok. rewrite <- fmap_drop in Hd.
    destruct (drop (length pre - length fs) als) as [|[n t] apost]; [done|].
    simpl in Hd. injection Hd as -> _.
    apply for_each_stops.
    + intros m. unfold add_alias. simpl. by rewrite split_name_bad.
    + rewrite Forall_fmap in Haok.
      eapply Forall_impl; [exact Haok|]. intros item Hi m.
      by apply add_alias_total.
Qed.

End SignatureMore.

(** ** The task lifecycle client, continued *)
Section LifecycleMore.

Context {collab : Collaborators}.

(** *** [list_tasks]: the last entry of a task id decides its label *)

Lemma record_status_label result t :
  record_status result t = <[mkTaskHandle (id t) := status_label t]> result.
Proof. apply record_status_eq. Qed.

Lemma foldl_record_status_last l result i :
  foldl record_status result l !! mkTaskHandle i
  = match last (filter (λ t, id t = i) l) with
    | Some t => Some (status_label t)
    | None => result !! mkTaskHandle i
    end.
Proof.
  revert result. induction l as [|t rest IH] using rev_ind; intros result.
  - done.
  - rewrite foldl_app, filter_app. simpl. rewrite record_status_label.
    destruct (decide (id t = i)) as [<-|Hne].
    + rewrite filter_cons_True by done. rewrite filter_nil, last_snoc.
      apply lookup_insert_eq.
    + rewrite filter_cons_False by done. rewrite filter_nil, app_nil_r.
      rewrite lookup_insert_ne by (by intros [= ?]). apply IH.
Qed.

(** X7: The mapping [list_tasks] returns has, under each handle, the label
    of the last entry of the response with that task id, and nothing
    under a handle no entry names; a label is the name of the entry's
    status, or ["running"] when it has none. *)
Theorem list_tasks_last_entry_wins (self : RuntimeClient) (stub : Stub)
    (decoded : ListTasksResponse) (w w1 w2 : World) :
  _runtime_stub self w = (Ok stub, w1) →
  RuntimeStub_list_tasks stub w1 = (Ok decoded, w2) →
  ∃ result, list_tasks self w = (Ok result, w2)
    ∧ ∀ handle, result !! handle
        = status_label
          <$> last (filter (λ t, id t = task_id handle) (tasks decoded)).
Proof.
  intros Hstub Hreply. exists (foldl record_status ∅ (tasks decoded)). split.
  - unfold list_tasks.
    by rewrite (bind_Ok _ _ _ _ _ Hstub), (bind_Ok _ _ _ _ _ Hreply).
  - intros [i]. simpl. rewrite foldl_record_status_last.
    by destruct (last _).
Qed.

(** *** The converted inputs *)

Lemma convert_inputs_lookup l inputs :
  Forall (λ item, is_Some (from_python item.2)) l →
  NoDup l.*1 →
  ∃ converted, for_each convert_input l inputs = Ok converted
    ∧ ∀ key v, converted !! key = Some v ↔
        (∃ o, (key, o) ∈ l ∧ from_python o = Some v)
        ∨ ((key ∉ l.*1) ∧ inputs !! key = Some v).
Proof.
  intros Hall. revert inputs.
  induction Hall as [|[k o] rest [tv Ho] _ IH]; intros inputs Hnd.
  - exists inputs. split; [done|]. intros key v. split.
    + intros H. right. split; [apply not_elem_of_nil|done].
    + intros [(o & H & _)|[_ H]]; [by apply elem_of_nil in H|done].
  - rewrite fmap_cons in Hnd. apply NoDup_cons in Hnd as [Hfresh Hnd].
    simpl in Ho, Hfresh.
    destruct (IH (<[k := tv]> inputs) Hnd) as (converted & Hrun & Hlook).
    exists converted. split.
    { simpl. unfold convert_input at 1. simpl. by rewrite Ho. }
    intros key v. rewrite Hlook. rewrite fmap_cons, not_elem_of_cons. simpl.
    destruct (decide (k = key)) as [<-|Hne].
    + rewrite lookup_insert_eq. split.
      * intros [(o' & Hin & Hv)|[_ [= <-]]].
        -- left. exists o'. split; [|done]. apply elem_of_cons. by right.
        -- left. exists o. split; [|done]. apply elem_of_cons. by left.
      * intros [(o' & Hin & Hv)|[[Hc _] _]]; [|done].
        apply elem_of_cons in Hin as [[= <-]|Hin].
        -- right. split; [done|]. congruence.
        -- left. by exists o'.
    + rewrite lookup_insert_ne by done. split.
      * intros [(o' & Hin & Hv)|[Hnot Hv]].
        -- left. exists o'. split; [|done]. apply elem_of_cons. by right.
        -- right. done.
      * intros [(o' & Hin & Hv)|[[_ Hnot] Hv]].
        -- apply elem_of_cons in Hin as [[= ? _]|Hin]; [done|].
           left. by exists o'.
        -- by right.
Qed.

(** *** The cache stays the client's own *)

Lemma own_cache_same_stubs self w w' :
  client_stubs w' = client_stubs w → own_cache self w → own_cache self w'.
Proof. intros Heq H key stub. unfold _stubs. rewrite Heq. apply H. Qed.

Lemma request_event_same self w w' req :
  listeners w' = listeners w → request_event self w' req = request_event self w req.
Proof. unfold request_event. by intros ->. Qed.

(** An access through one of the three properties never fails: it
    hands back a stub of the property's class bound to the client's
    channel, and changes nothing but the cache. *)
Lemma _stub_gen_own self key stub_t w :
  (key, stub_t) ∈ [("signature", SignatureStub); ("runtime", RuntimeStub);
                   ("type", TypeInferenceStub)] →
  own_cache self w →
  ∃ stub w1, _stub_gen self key stub_t w = (Ok stub, w1)
    ∧ stub_channel stub = _channel self ∧ stub_class stub = stub_t
    ∧ _stubs self w1 !! key = Some stub
    ∧ same_but_caches w w1 ∧ own_cache self w1
    ∧ ∀ i, i ≠ client_id self → client_stubs w1 !! i = client_stubs w !! i.
Proof.
  intros Hpair Hown.
  assert ((key = "signature" → stub_t = SignatureStub)
          ∧ (key = "runtime" → stub_t = RuntimeStub)
          ∧ (key = "type" → stub_t = TypeInferenceStub)) as (Hs & Hr & Ht).
  { repeat (apply elem_of_cons in Hpair as [[= -> ->]|Hpair]; [done|]).
    by apply elem_of_nil in Hpair. }
  destruct (_stubs self w !! key) as [stub|] eqn:Hc.
  - destruct (Hown _ _ Hc) as (Hch & Hcs & Hcr & Hct).
    assert (stub_class stub = stub_t) as Hclass.
    { repeat (apply elem_of_cons in Hpair as [[= -> ->]|Hpair]; [auto|]).
      by apply elem_of_nil in Hpair. }
    exists stub, w. rewrite (_stub_gen_hit _ _ _ _ _ Hc).
    replace (isinstance stub stub_t) with true
      by (symmetry; by apply isinstance_spec).
    done.
  - eexists _, _. split; [apply (_stub_gen_miss _ _ _ _ Hc)|]. simpl.
    split; [done|]. split; [done|].
    split; [by rewrite _stubs_store, lookup_insert_eq|]. split; [done|].
    split.
    + intros key' stub'. rewrite _stubs_store.
      destruct (decide (key = key')) as [<-|Hne].
      * rewrite lookup_insert_eq. intros [= <-]. simpl. done.
      * rewrite lookup_insert_ne by done. apply Hown.
    + intros i Hi. by rewrite lookup_insert_ne.
Qed.

Lemma sends_own_ret {A} self (Q : A → Prop) a : Q a → sends_own self Q (ret a).
Proof.
  intros Ha w Hown. simpl. split; [done|]. split; [done|]. split; [done|].
  split; [by intros ? [= <-]|]. exists []. by rewrite app_nil_r.
Qed.

Lemma sends_own_raise {A} self (Q : A → Prop) e : sends_own self Q (raise e).
Proof.
  intros w Hown. simpl. split; [done|]. split; [done|]. split; [done|].
  split; [done|]. exists []. by rewrite app_nil_r.
Qed.

Lemma sends_own_lift {A} self (r : Result A) : sends_own self (λ _, True) (lift r).
Proof.
  intros w Hown. simpl. split; [done|]. split; [done|]. split; [done|].
  split; [done|]. exists []. by rewrite app_nil_r.
Qed.

Lemma sends_own_weaken {A} self (Q Q' : A → Prop) m :
  (∀ a, Q a → Q' a) → sends_own self Q m → sends_own self Q' m.
Proof.
  intros HQ Hm w Hown. destruct (Hm w Hown) as (H1 & H2 & Hf & H3 & H4).
  split; [done|]. split; [done|]. split; [done|]. split; [|done].
  intros a Ha. by apply HQ, H3.
Qed.

Lemma sends_own_bind {A B} self (Q : A → Prop) (Q' : B → Prop)
    (m : M A) (k : A → M B) :
  sends_own self Q m → (∀ a, Q a → sends_own self Q' (k a)) →
  sends_own self Q' (bind m k).
Proof.
  intros Hm Hk w Hown. unfold bind.
  destruct (Hm w Hown) as (Hown1 & Hl1 & Hf1 & HQ & sent1 & He1 & Hs1).
  destruct (m w) as [[a|e] w1]; simpl in *.
  - destruct (Hk a (HQ a eq_refl) w1 Hown1)
      as (Hown2 & Hl2 & Hf2 & HQ' & sent2 & He2 & Hs2).
    split; [done|]. split; [congruence|].
    split; [intros i Hi; by rewrite Hf2, Hf1|]. split; [done|].
    exists (sent1 ++ sent2). rewrite He2, He1, app_assoc. split; [done|].
    apply Forall_app. split; [done|].
    eapply Forall_impl; [exact Hs2|]. intros ev [req ->]. exists req.
    by apply request_event_same.
  - split; [done|]. split; [done|]. split; [done|]. split; [done|].
    by exists sent1.
Qed.

Lemma sends_own_stub_gen self key stub_t :
  (key, stub_t) ∈ [("signature", SignatureStub); ("runtime", RuntimeStub);
                   ("type", TypeInferenceStub)] →
  sends_own self (λ stub, stub_channel stub = _channel self)
    (_stub_gen self key stub_t).
Proof.
  intros Hpair w Hown.
  destruct (_stub_gen_own self key stub_t w Hpair Hown)
    as (stub & w1 & -> & Hch & _ & _ & (Hev & Hls & _) & Hown1 & Hframe). simpl.
  split; [done|]. split; [done|]. split; [done|]. split; [by intros ? [= <-]|].
  exists []. by rewrite app_nil_r.
Qed.

Lemma sends_own_unary_call {A} self ch req
    (reply : Server → list Event → Result A) :
  ch = _channel self → sends_own self (λ _, True) (unary_call ch req reply).
Proof.
  intros -> w Hown. rewrite unary_call_eq. simpl.
  split; [done|]. split; [done|]. split; [done|]. split; [done|].
  eexists [_]. split; [done|]. repeat constructor. by eexists.
Qed.

Lemma pair_runtime :
  ("runtime", RuntimeStub) ∈ [("signature", SignatureStub); ("runtime", RuntimeStub);
                              ("type", TypeInferenceStub)].
Proof. apply elem_of_cons. right. apply elem_of_cons. by left. Qed.

Lemma pair_signature :
  ("signature", SignatureStub)
  ∈ [("signature", SignatureStub); ("runtime", RuntimeStub);
     ("type", TypeInferenceStub)].
Proof. apply elem_of_cons. by left. Qed.

Lemma pair_type :
  ("type", TypeInferenceStub)
  ∈ [("signature", SignatureStub); ("runtime", RuntimeStub);
     ("type", TypeInferenceStub)].
Proof. do 2 (apply elem_of_cons; right). apply elem_of_cons. by left. Qed.

Lemma sends_own_perform {X} self (call : ClientCall X) :
  sends_own self (λ _, True) (perform self call).
Proof.
  assert (∀ graph py_inputs,
            sends_own self (λ _, True) (start_task self graph py_inputs)) as Hstart.
  { intros graph py_inputs. unfold start_task.
    eapply sends_own_bind; [apply sends_own_lift|]. intros inputs _.
    eapply sends_own_bind; [apply sends_own_stub_gen, pair_runtime|].
    intros stub Hch.
    eapply sends_own_bind; [by apply sends_own_unary_call|]. intros decoded _.
    destruct (which_one_of_result decoded) as [name value].
    destruct (String.eqb name "task_id");
      [by apply sends_own_ret|apply sends_own_raise]. }
  assert (∀ handle, sends_own self (λ _, True) (await_task self handle)) as Hawait.
  { intros handle. unfold await_task.
    eapply sends_own_bind; [apply sends_own_stub_gen, pair_runtime|].
    intros stub Hch.
    eapply sends_own_bind; [by apply sends_own_unary_call|]. intros decoded _.
    destruct (which_one_of_status (task decoded)) as [name value].
    destruct (negb (String.eqb name "success")); [apply sends_own_raise|].
    destruct value; try apply sends_own_raise.
    destruct (from_proto_dict (sv_map v));
      [by apply sends_own_ret|apply sends_own_raise]. }
  destruct call; simpl.
  - unfold get_signature.
    eapply sends_own_bind; [apply sends_own_stub_gen, pair_signature|].
    intros stub Hch.
    eapply sends_own_bind; [by apply sends_own_unary_call|]. intros pr_sig _.
    apply sends_own_lift.
  - apply Hstart.
  - unfold list_tasks.
    eapply sends_own_bind; [apply sends_own_stub_gen, pair_runtime|].
    intros stub Hch.
    eapply sends_own_bind; [by apply sends_own_unary_call|]. intros decoded _.
    by apply sends_own_ret.
  - apply Hawait.
  - unfold delete_task.
    eapply sends_own_bind; [apply sends_own_stub_gen, pair_runtime|].
    intros stub Hch. by apply sends_own_unary_call.
  - unfold run_graph.
    eapply sends_own_bind; [apply Hstart|]. intros handle _.
    eapply sends_own_bind; [apply Hawait|]. intros outputs _.
    by apply sends_own_ret.
  - unfold type_check_graph.
    eapply sends_own_bind; [apply sends_own_lift|]. intros value _.
    eapply sends_own_bind; [apply sends_own_stub_gen, pair_type|].
    intros stub Hch.
    eapply sends_own_bind; [by apply sends_own_unary_call|]. intros response _.
    destruct (which_one_of_response response) as [name message].
    destruct (String.eqb name "success"), message as [|success|errors];
      try apply sends_own_raise.
    + destruct (graph_is_none (its_value success)); [apply sends_own_raise|].
      destruct (graph_from_value_proto (its_value success));
        [by apply sends_own_ret|apply sends_own_raise].
    + destruct type_errors_from_none; apply sends_own_raise.
Qed.

(** X1: A client starts with an empty stub cache, bound to the channel
    it was given, and building it sends nothing; every [async] call it
    makes keeps each cached stub bound to the client's channel and of
    the class of its key, leaves the cache of every other client as it
    was, and sends its requests over the client's own channel, with the
    metadata the channel's listeners give them. *)
Theorem client_cache_invariant :
  (∀ channel w, ∃ self w',
     RuntimeClient_new channel w = (Ok self, w')
     ∧ _channel self = channel ∧ _stubs self w' = ∅
     ∧ events w' = events w ∧ own_cache self w')
  ∧ (∀ self X (call : ClientCall X) w,
       own_cache self w →
       own_cache self (perform self call w).2
       ∧ (∀ other, client_id other ≠ client_id self →
            _stubs other (perform self call w).2 = _stubs other w)
       ∧ ∃ sent, events (perform self call w).2 = events w ++ sent
           ∧ Forall (λ ev, ∃ req, ev = request_event self w req) sent).
Proof.
  split.
  - intros channel w. eexists _, _. split; [reflexivity|]. split; [done|].
    assert (∀ i (m : gmap nat (gmap string Stub)),
              default ∅ (<[i := ∅]> m !! i) = (∅ : gmap string Stub)) as Hnew.
    { intros i m. by rewrite lookup_insert_eq. }
    split; [apply Hnew|]. split; [done|].
    intros key stub. unfold _stubs. simpl. rewrite Hnew.
    by rewrite lookup_empty.
  - intros self X call w Hown.
    destruct (sends_own_perform self call w Hown) as (H1 & _ & Hf & _ & H4).
    split; [done|]. split; [|done].
    intros other Hne. unfold _stubs. by rewrite Hf.
Qed.

(** X2: On a client whose cache is its own, the three stub properties never
    raise: each hands back a stub of its class, bound to the client's
    channel, and the stub is cached under the property's key. *)
Theorem stub_properties_succeed (self : RuntimeClient) (w : World) :
  own_cache self w →
  (∃ stub w1, _signature_stub self w = (Ok stub, w1)
     ∧ stub_class stub = SignatureStub ∧ stub_channel stub = _channel self
     ∧ _stubs self w1 !! "signature" = Some stub)
  ∧ (∃ stub w1, _runtime_stub self w = (Ok stub, w1)
       ∧ stub_class stub = RuntimeStub ∧ stub_channel stub = _channel self
       ∧ _stubs self w1 !! "runtime" = Some stub)
  ∧ (∃ stub w1, _type_stub self w = (Ok stub, w1)
       ∧ stub_class stub = TypeInferenceStub ∧ stub_channel stub = _channel self
       ∧ _stubs self w1 !! "type" = Some stub).
Proof.
  intros Hown. split; [|split].
  - destruct (_stub_gen_own self "signature" SignatureStub w pair_signature Hown)
      as (stub & w1 & H & Hch & Hcl & Hc & _). by exists stub, w1.
  - destruct (_stub_gen_own self "runtime" RuntimeStub w pair_runtime Hown)
      as (stub & w1 & H & Hch & Hcl & Hc & _). by exists stub, w1.
  - destruct (_stub_gen_own self "type" TypeInferenceStub w) as
      (stub & w1 & H & Hch & Hcl & Hc & _); [|done|by exists stub, w1].
    do 2 (apply elem_of_cons; right). apply elem_of_cons. by left.
Qed.

(** X3: No [async] call of the client opens or closes a channel, registers
    a listener or touches the credential store or the server: apart
    from the stub caches, all it does to the world is send requests. *)
Theorem client_calls_only_send (self : RuntimeClient) {X} (call : ClientCall X)
    (w : World) :
  let w' := (perform self call w).2 in
  listeners w' = listeners w ∧ keyring w' = keyring w ∧ server w' = server w
  ∧ ∃ sent, events w' = events w ++ sent ∧ Forall is_request sent.
Proof.
  destruct (only_sends_perform self call w) as (sent & He & Hs & Hl & Hk & Hv & _).
  simpl. split; [done|]. split; [done|]. split; [done|].
  exists sent. split; [done|].
  eapply Forall_impl; [exact Hs|]. by intros [].
Qed.

(** *** What each call sends *)

Lemma runtime_stub_own self w :
  own_cache self w →
  ∃ stub w1, _runtime_stub self w = (Ok stub, w1)
    ∧ stub_channel stub = _channel self
    ∧ same_but_caches w w1 ∧ own_cache self w1.
Proof.
  intros Hown.
  destruct (_stub_gen_own self "runtime" RuntimeStub w pair_runtime Hown)
    as (stub & w1 & H & Hch & _ & _ & Hsame & Hown1 & _).
  by exists stub, w1.
Qed.

(** X8: [delete_task] sends one delete request for the handle's task id
    over the client's channel and hands back what the server answers,
    failure included; it keeps no record of the deletion. *)
Theorem delete_task_sends_one_request (self : RuntimeClient) (handle : TaskHandle)
    (w : World) :
  own_cache self w →
  let ev := request_event self w (ReqDeleteTask (task_id handle)) in
  ∃ w1, same_but_caches w w1
    ∧ delete_task self handle w
      = (reply_delete_task (server w) (events w ++ [ev]),
         set_events (λ evs, evs ++ [ev]) w1).
Proof.
  intros Hown ev.
  destruct (runtime_stub_own self w Hown)
    as (stub & w1 & Hstub & Hch & (Hev & Hls & Hk & Hsv) & Hown1).
  exists w1. split; [done|].
  unfold delete_task. rewrite (bind_Ok _ _ _ _ _ Hstub).
  unfold RuntimeStub_delete_task. rewrite unary_call_eq, Hch, Hls, Hsv, Hev.
  done.
Qed.

(** X9: [get_signature] sends one request and parses the reply: a
    transport failure and a [ValueError] of the parser both come out as
    they are, the latter after the request has been sent. *)
Theorem get_signature_parses_reply (self : RuntimeClient) (w : World) :
  own_cache self w →
  let ev := request_event self w ReqListFunctions in
  ∃ w1, same_but_caches w w1
    ∧ get_signature self w
      = (res_bind (reply_list_functions (server w) (events w ++ [ev]))
           signature_from_proto,
         set_events (λ evs, evs ++ [ev]) w1).
Proof.
  intros Hown ev.
  destruct (_stub_gen_own self "signature" SignatureStub w pair_signature Hown)
    as (stub & w1 & Hstub & Hch & _ & _ & (Hev & Hls & Hk & Hsv) & Hown1 & _).
  exists w1. split; [done|].
  unfold get_signature, _signature_stub. rewrite (bind_Ok _ _ _ _ _ Hstub).
  unfold SignatureStub_list_functions, bind. rewrite unary_call_eq, Hch, Hls, Hsv, Hev.
  fold ev. by destruct (reply_list_functions _ _).
Qed.

(** X4: When every input converts, [start_task] sends one run request; the
    struct it carries holds, under each input name, the typed value of
    that input and nothing else; a transport failure comes out as it
    is. *)
Theorem start_task_sends_inputs (self : RuntimeClient) (graph : TierkreisGraph)
    (py_inputs : list (string * PyObj)) (w : World) :
  own_cache self w →
  Forall (λ item, is_Some (from_python item.2)) py_inputs →
  NoDup py_inputs.*1 →
  ∃ inputs w1,
    (∀ key v, inputs !! key = Some v ↔
       ∃ o, (key, o) ∈ py_inputs ∧ from_python o = Some v)
    ∧ same_but_caches w w1
    ∧ let ev := request_event self w
                  (ReqRunTask (graph_to_proto graph)
                     (mkStructValueProto (to_proto_dict inputs))) in
      (start_task self graph py_inputs w).2 = set_events (λ evs, evs ++ [ev]) w1
      ∧ ∀ e, reply_run_task (server w) (events w ++ [ev]) = Err e →
          (start_task self graph py_inputs w).1 = Err e.
Proof.
  intros Hown Hall Hnd.
  destruct (convert_inputs_lookup py_inputs ∅ Hall Hnd) as (inputs & Hconv & Hlook).
  destruct (runtime_stub_own self w Hown)
    as (stub & w1 & Hstub & Hch & (Hev & Hls & Hk & Hsv) & Hown1).
  exists inputs, w1. split; [|split; [done|]].
  - intros key v. rewrite Hlook. split.
    + intros [H|[_ H]]; [done|]. by rewrite lookup_empty in H.
    + intros H. by left.
  - unfold start_task.
    rewrite (bind_Ok _ _ w inputs w) by (unfold lift; by rewrite Hconv).
    rewrite (bind_Ok _ _ _ _ _ Hstub).
    unfold RuntimeStub_run_task, bind. rewrite unary_call_eq, Hch, Hls, Hsv, Hev.
    destruct (reply_run_task _ _) as [decoded|e] eqn:Hr; simpl.
    + split; [by destruct decoded|]. by intros e.
    + split; [done|]. by intros e' [= <-].
Qed.

Lemma start_task_exact self graph py_inputs inputs w :
  own_cache self w →
  for_each convert_input py_inputs ∅ = Ok inputs →
  let ev := request_event self w
              (ReqRunTask (graph_to_proto graph)
                 (mkStructValueProto (to_proto_dict inputs))) in
  ∃ w1, same_but_caches w w1 ∧ own_cache self w1
    ∧ start_task self graph py_inputs w
      = (match reply_run_task (server w) (events w ++ [ev]) with
         | Ok (ResultTaskId tid) => Ok (mkTaskHandle tid)
         | Ok decoded =>
             Err (TierkreisTypeErrors
                    (type_errors_from_proto (get_type_errors decoded)))
         | Err e => Err e
         end, set_events (λ evs, evs ++ [ev]) w1).
Proof.
  intros Hown Hconv ev.
  destruct (runtime_stub_own self w Hown)
    as (stub & w1 & Hstub & Hch & (Hev & Hls & Hk & Hsv) & Hown1).
  exists w1. split; [done|]. split; [done|].
  unfold start_task.
  rewrite (bind_Ok _ _ w inputs w) by (unfold lift; by rewrite Hconv).
  rewrite (bind_Ok _ _ _ _ _ Hstub).
  unfold RuntimeStub_run_task, bind. rewrite unary_call_eq, Hch, Hls, Hsv, Hev.
  fold ev. destruct (reply_run_task _ _) as [decoded|e]; [|done].
  by destruct decoded.
Qed.

Lemma await_task_exact self handle w :
  own_cache self w →
  let ev := request_event self w (ReqAwaitTask (task_id handle)) in
  ∃ w1, same_but_caches w w1 ∧ own_cache self w1
    ∧ await_task self handle w
      = (match reply_await_task (server w) (events w ++ [ev]) with
         | Ok decoded =>
             match status (task decoded) with
             | StatusSuccess v =>
                 match from_proto_dict (sv_map v) with
                 | Some values => Ok values
                 | None => Err (ForeignError "from_proto_dict")
                 end
             | _ =>
                 Err (RuntimeError
                        ("Task execution failed with message:" +:+ newline
                         +:+ py_str (which_one_of_status (task decoded)).2))
             end
         | Err e => Err e
         end, set_events (λ evs, evs ++ [ev]) w1).
Proof.
  intros Hown ev.
  destruct (runtime_stub_own self w Hown)
    as (stub & w1 & Hstub & Hch & (Hev & Hls & Hk & Hsv) & Hown1).
  exists w1. split; [done|]. split; [done|].
  unfold await_task. rewrite (bind_Ok _ _ _ _ _ Hstub).
  unfold RuntimeStub_await_task, bind. rewrite unary_call_eq, Hch, Hls, Hsv, Hev.
  fold ev. destruct (reply_await_task _ _) as [decoded|e]; [|done].
  unfold which_one_of_status.
  destruct (status (task decoded)) as [|v|err]; simpl; try done.
  by destruct (from_proto_dict (sv_map v)).
Qed.

(** When the inputs convert, the run request is the first thing
    [run_graph] sends. *)
Lemma run_graph_first_request self graph py_inputs inputs w :
  own_cache self w →
  for_each convert_input py_inputs ∅ = Ok inputs →
  ∃ rest,
    events (run_graph self graph py_inputs w).2
    = events w ++ request_event self w
                    (ReqRunTask (graph_to_proto graph)
                       (mkStructValueProto (to_proto_dict inputs))) :: rest.
Proof.
  intros Hown Hconv.
  destruct (start_task_exact self graph py_inputs inputs w Hown Hconv)
    as (w1 & (Hev1 & _) & _ & Hstart).
  set (ev := request_event self w _) in *.
  unfold run_graph, bind at 1. rewrite Hstart.
  destruct (reply_run_task _ _) as [[|tid|errs]|e]; simpl;
    try (exists []; by rewrite Hev1).
  pose proof (only_sends_await_task self (mkTaskHandle tid)
                (set_events (λ evs, evs ++ [ev]) w1)) as (rest & Hr & _).
  exists rest. unfold bind, ret.
  destruct (await_task self (mkTaskHandle tid) _) as [[outputs|e] w2];
    simpl in *; by rewrite Hr, Hev1, <- app_assoc.
Qed.

Lemma own_cache_set_events self f w :
  own_cache self (set_events f w) ↔ own_cache self w.
Proof. done. Qed.

(** X5: When the server accepts the graph, [run_graph] sends the run
    request and then one await request naming the task id the server
    issued; its outcome is the decoded result of a successful task
    (whatever task id the reply bears), and a transport failure of the
    await comes out as it is. *)
Theorem run_graph_awaits_issued_task (self : RuntimeClient)
    (graph : TierkreisGraph) (py_inputs : list (string * PyObj))
    (inputs : gmap string TierkreisValue) (tid : string) (w : World) :
  own_cache self w →
  for_each convert_input py_inputs ∅ = Ok inputs →
  let ev1 := request_event self w
               (ReqRunTask (graph_to_proto graph)
                  (mkStructValueProto (to_proto_dict inputs))) in
  let ev2 := request_event self w (ReqAwaitTask tid) in
  reply_run_task (server w) (events w ++ [ev1]) = Ok (ResultTaskId tid) →
  events (run_graph self graph py_inputs w).2 = events w ++ [ev1; ev2]
  ∧ (∀ tid' v,
       reply_await_task (server w) (events w ++ [ev1; ev2])
       = Ok (mkAwaitTaskResponse (mkTask tid' (StatusSuccess v))) →
       (run_graph self graph py_inputs w).1
       = match from_proto_dict (sv_map v) with
         | Some values => Ok values
         | None => Err (ForeignError "from_proto_dict")
         end)
  ∧ (∀ e, reply_await_task (server w) (events w ++ [ev1; ev2]) = Err e →
       (run_graph self graph py_inputs w).1 = Err e).
Proof.
  intros Hown Hconv ev1 ev2 Hrun.
  destruct (start_task_exact self graph py_inputs inputs w Hown Hconv)
    as (w1 & (Hev1 & Hls1 & Hk1 & Hsv1) & Hown1 & Hstart).
  fold ev1 in Hstart. rewrite Hrun in Hstart.
  set (w1' := set_events (λ evs, evs ++ [ev1]) w1) in *.
  destruct (await_task_exact self (mkTaskHandle tid) w1')
    as (w2 & (Hev2 & Hls2 & Hk2 & Hsv2) & Hown2 & Hawait); [done|].
  cbn [task_id] in Hawait.
  rewrite (request_event_same self w w1') in Hawait by done.
  fold ev2 in Hawait.
  replace (server w1') with (server w) in Hawait by done.
  replace (events w1' ++ [ev2]) with (events w ++ [ev1; ev2]) in Hawait
    by (subst w1'; simpl; rewrite Hev1, <- app_assoc; done).
  assert (run_graph self graph py_inputs w
          = ((await_task self (mkTaskHandle tid) w1').1,
             (await_task self (mkTaskHandle tid) w1').2)) as Hrg.
  { unfold run_graph. rewrite (bind_Ok _ _ _ _ _ Hstart). unfold bind, ret.
    by destruct (await_task self (mkTaskHandle tid) w1') as [[outputs|e] w3]. }
  rewrite Hrg, Hawait. simpl. split; [|split].
  - rewrite Hev2. subst w1'. simpl. by rewrite Hev1, <- app_assoc.
  - intros tid' v Hr. by rewrite Hr.
  - intros e Hr. by rewrite Hr.
Qed.

(** X6: When the server's answer to the run request is anything but a task
    id (type errors, an unset result, a transport failure), [run_graph]
    stops there: the run request is the only one sent, no mapping is
    returned, and the outcome is the failure of [start_task]. *)
Theorem run_graph_rejected_sends_no_await (self : RuntimeClient)
    (graph : TierkreisGraph) (py_inputs : list (string * PyObj))
    (inputs : gmap string TierkreisValue) (w : World) :
  own_cache self w →
  for_each convert_input py_inputs ∅ = Ok inputs →
  let ev1 := request_event self w
               (ReqRunTask (graph_to_proto graph)
                  (mkStructValueProto (to_proto_dict inputs))) in
  (∀ tid, reply_run_task (server w) (events w ++ [ev1]) ≠ Ok (ResultTaskId tid)) →
  events (run_graph self graph py_inputs w).2 = events w ++ [ev1]
  ∧ (∃ e, (run_graph self graph py_inputs w).1 = Err e
          ∧ (start_task self graph py_inputs w).1 = Err e
          ∧ ∀ errs, reply_run_task (server w) (events w ++ [ev1])
                    = Ok (ResultTypeErrors errs) →
              e = TierkreisTypeErrors (type_errors_from_proto errs)).
Proof.
  intros Hown Hconv ev1 Hnot.
  destruct (start_task_exact self graph py_inputs inputs w Hown Hconv)
    as (w1 & (Hev1 & Hls1 & Hk1 & Hsv1) & Hown1 & Hstart).
  fold ev1 in Hstart.
  assert (∃ e, start_task self graph py_inputs w
               = (Err e, set_events (λ evs, evs ++ [ev1]) w1)
             ∧ ∀ errs, reply_run_task (server w) (events w ++ [ev1])
                       = Ok (ResultTypeErrors errs) →
                 e = TierkreisTypeErrors (type_errors_from_proto errs))
    as (e & He & Herrs).
  { rewrite Hstart.
    destruct (reply_run_task (server w) (events w ++ [ev1])) as [[|tid|errs]|e].
    - eexists. split; [done|]. by intros errs.
    - by destruct (Hnot tid).
    - eexists. split; [done|]. by intros errs' [= <-].
    - eexists. split; [done|]. by intros errs. }
  unfold run_graph. rewrite (bind_Err _ _ _ _ _ He), He. simpl.
  split; [by rewrite Hev1|]. by exists e.
Qed.

(** X21: [type_check_graph] turns the graph into a value first: when that
    fails, nothing is sent.  Otherwise it sends one type-inference
    request carrying that value over the client's channel.  When the
    reply is the error variant it raises [TierkreisTypeErrors] built
    from the very errors of the reply; a transport failure comes out as
    it is; and a graph is returned only when the reply is the success
    variant: the graph decoded from the value of the reply. *)
Theorem type_check_graph_response (self : RuntimeClient) (graph : TierkreisGraph)
    (w : World) :
  own_cache self w →
  (graph_to_value_proto graph = None →
     ∃ e, type_check_graph self graph w = (Err e, w))
  ∧ ∀ value, graph_to_value_proto graph = Some value →
      let ev := request_event self w (ReqInferType value) in
      let reply := reply_infer_type (server w) (events w ++ [ev]) in
      let out := type_check_graph self graph w in
      (∃ w1, same_but_caches w w1 ∧ out.2 = set_events (λ evs, evs ++ [ev]) w1)
      ∧ (∀ errs, reply = Ok (ResponseError errs) →
           out.1 = Err (TierkreisTypeErrors (type_errors_from_proto errs)))
      ∧ (∀ e, reply = Err e → out.1 = Err e)
      ∧ (∀ annotated, out.1 = Ok annotated →
           ∃ success, reply = Ok (ResponseSuccess success)
             ∧ graph_is_none (its_value success) = false
             ∧ graph_from_value_proto (its_value success) = Some annotated)
      ∧ (∀ success annotated, reply = Ok (ResponseSuccess success) →
           graph_is_none (its_value success) = false →
           graph_from_value_proto (its_value success) = Some annotated →
           out.1 = Ok annotated).
Proof.
  intros Hown. split.
  - intros Hnone. eexists. unfold type_check_graph.
    apply bind_Err. unfold lift. by rewrite Hnone.
  - intros value Hconv ev reply out.
    destruct (_stub_gen_own self "type" TypeInferenceStub w pair_type Hown)
      as (stub & w1 & Hstub & Hch & _ & _ & (Hev & Hls & Hk & Hsv) & Hown1 & _).
    assert (out
            = (match reply with
               | Ok (ResponseSuccess success) =>
                   if graph_is_none (its_value success) then Err AssertionError
                   else
                     match graph_from_value_proto (its_value success) with
                     | Some annotated => Ok annotated
                     | None => Err (ForeignError "from_proto")
                     end
               | Ok (ResponseError errs) =>
                   Err (TierkreisTypeErrors (type_errors_from_proto errs))
               | Ok ResponseUnset =>
                   match type_errors_from_none with
                   | Some errs => Err (TierkreisTypeErrors errs)
                   | None => Err (ForeignError "TierkreisTypeErrors.from_proto")
                   end
               | Err e => Err e
               end, set_events (λ evs, evs ++ [ev]) w1)) as Hout.
    { subst out. unfold type_check_graph.
      rewrite (bind_Ok _ _ w value w) by (unfold lift; by rewrite Hconv).
      unfold _type_stub. rewrite (bind_Ok _ _ _ _ _ Hstub).
      unfold TypeInferenceStub_infer_type, bind.
      rewrite unary_call_eq, Hch, Hls, Hsv, Hev. unfold reply, ev, request_event.
      destruct (reply_infer_type _ _) as [[|success|errs]|e]; simpl; try done.
      - by destruct type_errors_from_none.
      - destruct (graph_is_none (its_value success)); [done|].
        by destruct (graph_from_value_proto (its_value success)). }
    rewrite Hout. simpl. split; [by exists w1|].
    split; [by intros errs ->|]. split; [by intros e ->|]. split.
    + intros annotated.
      destruct reply as [[|success|errs]|e]; try done.
      * by destruct type_errors_from_none.
      * destruct (graph_is_none (its_value success)) eqn:Hg; [done|].
        destruct (graph_from_value_proto (its_value success)) eqn:Hd; [|done].
        intros [= <-]. by exists success.
    + intros success annotated -> Hg Hd. by rewrite Hg, Hd.
Qed.

End LifecycleMore.


(** ** The blocking bridge and the authenticator, continued *)
Section BridgeAndAuthenticator.

Context {collab : Collaborators}.

(** X14: The injector writes [token] and [key] and nothing else: every other
    field keeps its value, earlier values of the two are replaced, and
    injecting twice is injecting once. *)
Theorem auth_injector_fields (login pwd : string)
    (metadata : gmap string string) :
  (∀ field,
     _gen_auth_injector login pwd metadata !! field
     = if decide (field = "key") then Some pwd
       else if decide (field = "token") then Some login
       else metadata !! field)
  ∧ _gen_auth_injector login pwd (_gen_auth_injector login pwd metadata)
    = _gen_auth_injector login pwd metadata
  ∧ ∀ login' pwd',
      _gen_auth_injector login pwd (_gen_auth_injector login' pwd' metadata)
      = _gen_auth_injector login pwd metadata.
Proof.
  assert (∀ l p md field,
            _gen_auth_injector l p md !! field
            = if decide (field = "key") then Some p
              else if decide (field = "token") then Some l
              else md !! field) as Hfield.
  { intros l p md field. unfold _gen_auth_injector.
    destruct (decide (field = "key")) as [->|Hk]; [apply lookup_insert_eq|].
    rewrite lookup_insert_ne by done.
    destruct (decide (field = "token")) as [->|Ht]; [apply lookup_insert_eq|].
    by rewrite lookup_insert_ne. }
  assert (∀ l p l' p' md,
            _gen_auth_injector l p (_gen_auth_injector l' p' md)
            = _gen_auth_injector l p md) as Hlast.
  { intros l p l' p' md. apply map_eq. intros field. rewrite !Hfield.
    by repeat case_decide. }
  split; [apply Hfield|]. split; [apply Hlast|]. intros. apply Hlast.
Qed.

Lemma stamped_metadata_unallocated (w : World) (ch : Channel) :
  listeners_allocated w → chan_id ch = next_id w →
  stamped_metadata (listeners w) ch = ∅.
Proof.
  intros Halloc Hid. unfold stamped_metadata, listeners_allocated in *.
  induction (listeners w) as [|entry ls IH]; [done|].
  rewrite filter_cons_False.
  - apply IH. intros e He. apply Halloc. apply elem_of_cons. by right.
  - intros Heq. specialize (Halloc entry ltac:(apply elem_of_cons; by left)). lia.
Qed.

(** X12: [run_graph_block] works on a channel and a client of its own.
    It opens a new channel to the client's host and port and builds a
    fresh client on it, with an empty stub cache; its outcome is the
    outcome of [run_graph] on that client in the world so prepared, and
    the channel is closed behind it whatever the outcome.  What that
    [run_graph] sends is all that happens in between, beginning with the
    run request when the inputs convert; its requests leave over the new
    channel; no listener is registered; the caller's stub cache is not
    touched; and the listeners of the caller's channel do not apply:
    when listeners sit on allocated channels only, the requests carry no
    metadata at all. *)
Theorem run_graph_block_isolated (self : RuntimeClient) (graph : TierkreisGraph)
    (py_inputs : list (string * PyObj)) (w : World) :
  let channel :=
    mkChannel (next_id w) (_host (_channel self)) (_port (_channel self)) in
  let client := mkRuntimeClient (S (next_id w)) channel in
  let w_start :=
    mkWorld (events w ++ [ChannelOpened channel]) (listeners w)
            (<[S (next_id w) := ∅]> (client_stubs w)) (S (S (next_id w)))
            (keyring w) (server w) in
  let ran := run_graph client graph py_inputs w_start in
  let out := run_graph_block self graph py_inputs w in
  out = (ran.1, set_events (λ evs, evs ++ [ChannelClosed channel]) ran.2)
  ∧ _stubs client w_start = ∅
  ∧ ∃ sent,
      events out.2
      = events w ++ [ChannelOpened channel] ++ sent ++ [ChannelClosed channel]
      ∧ Forall (λ ev, ∃ req,
                  ev = RequestSent channel
                         (stamped_metadata (listeners w) channel) req) sent
      ∧ (∀ inputs, for_each convert_input py_inputs ∅ = Ok inputs →
           ∃ rest,
             sent = RequestSent channel (stamped_metadata (listeners w) channel)
                      (ReqRunTask (graph_to_proto graph)
                         (mkStructValueProto (to_proto_dict inputs))) :: rest)
      ∧ listeners out.2 = listeners w
      ∧ ((client_id self < next_id w)%nat → _stubs self out.2 = _stubs self w)
      ∧ (listeners_allocated w → stamped_metadata (listeners w) channel = ∅).
Proof.
  intros channel client w_start ran out.
  assert (out = (ran.1, set_events (λ evs, evs ++ [ChannelClosed channel]) ran.2))
    as Hout by apply run_graph_block_eq.
  assert (_stubs client w_start = ∅) as Hnew.
  { unfold _stubs. simpl. by rewrite lookup_insert_eq. }
  assert (own_cache client w_start) as Hown.
  { intros key stub. rewrite Hnew. by rewrite lookup_empty. }
  split; [done|]. split; [done|].
  destruct (sends_own_perform client (CallRunGraph graph py_inputs) w_start Hown)
    as (_ & Hls & Hframe & _ & sent & Hev & Hsent).
  simpl in Hls, Hframe, Hev. fold ran in Hls, Hframe, Hev.
  exists sent. rewrite Hout. simpl.
  split. { rewrite Hev. simpl. by rewrite <- !app_assoc. }
  split; [done|]. split; [|split; [done|split]].
  - intros inputs Hconv.
    destruct (run_graph_first_request client graph py_inputs inputs w_start
                Hown Hconv) as [rest Hrest].
    exists rest. fold ran in Hrest. rewrite Hrest in Hev.
    by apply app_inv_head in Hev.
  - intros Hlt. unfold _stubs. simpl. rewrite Hframe by (simpl; lia).
    simpl. rewrite lookup_insert_ne by lia. done.
  - intros Halloc. by apply stamped_metadata_unallocated.
Qed.


(** No listener on a channel, no metadata on its requests. *)
Lemma stamped_metadata_none ls ch :
  Forall (λ entry : nat * Hook, entry.1 ≠ chan_id ch) ls →
  stamped_metadata ls ch = ∅.
Proof.
  intros Hall. unfold stamped_metadata.
  induction Hall as [|entry ls Hne _ IH]; [done|].
  by rewrite filter_cons_False.
Qed.

(** A call of a wrapped handler, step by step: the channel and the
    client take the next two identities, the injector is registered
    when both secrets are stored, the handler runs, and the channel is
    closed behind it. *)
Lemma wrapped_func_eq {R} worker (func : Handler R) args kwargs w host port :
  callback worker = Some (host, port) →
  let channel := mkChannel (next_id w) host port in
  let client := mkRuntimeClient (S (next_id w)) channel in
  let w_start :=
    mkWorld (events w ++ [ChannelOpened channel])
            (listeners w ++
             match keyring w !! (_KEYRING_SERVICE, "token"),
                   keyring w !! (_KEYRING_SERVICE, "key") with
             | Some t, Some k => [(chan_id channel, _gen_auth_injector t k)]
             | _, _ => []
             end)
            (<[S (next_id w) := ∅]> (client_stubs w)) (S (S (next_id w)))
            (keyring w) (server w) in
  let body := run_coroutine (call_handler func (ArgClient client :: args) kwargs) in
  wrapped_func worker func args kwargs w
  = ((body w_start).1,
     set_events (λ evs, evs ++ [ChannelClosed channel]) (body w_start).2).
Proof.
  intros Hcb channel client w_start body. subst w_start.
  unfold wrapped_func. rewrite Hcb.
  unfold bind at 1. unfold Channel_new, fresh, bind, get_world, modify, ret.
  simpl. fold channel.
  unfold finally, keyring_get_password, bind, get_world, ret. simpl.
  destruct (keyring w !! (_KEYRING_SERVICE, "token")) as [t|],
           (keyring w !! (_KEYRING_SERVICE, "key")) as [k|];
    unfold listen, RuntimeClient_new, fresh, bind, get_world, modify, ret; simpl;
    fold client; fold body; rewrite ?app_nil_r;
    match goal with
    | |- _ = ((body ?w0).1, _) =>
        change (set_client_stubs _ _) with w0; by destruct (body w0)
    end.
Qed.

(** X22: Within a call of a wrapped handler the injector stamps the
    callback channel only.  Every request that leaves over a channel
    opened later carries no metadata at all, whether the secrets are
    stored or not (listeners sitting on allocated channels only when the
    call starts); and such are the requests of [run_graph_block]: when
    the handler begins with that call on inputs that convert, the run
    request leaves over a channel of its own without any metadata. *)
Theorem blocking_call_not_authenticated {R} (worker : Worker) (func : Handler R)
    (wrapped : list Arg → list (string * Arg) → M R)
    (args : list Arg) (kwargs : list (string * Arg)) (w : World)
    (host : string) (port : Z) :
  with_runtime_client worker func = Ok wrapped →
  callback worker = Some (host, port) →
  listeners_allocated w →
  let channel := mkChannel (next_id w) host port in
  let client := mkRuntimeClient (S (next_id w)) channel in
  ∃ sent,
    events (wrapped args kwargs w).2
    = events w ++ [ChannelOpened channel] ++ sent ++ [ChannelClosed channel]
    ∧ (∀ ch md req, RequestSent ch md req ∈ sent →
         (chan_id channel < chan_id ch)%nat → md = ∅)
    ∧ ∀ self graph py_inputs k inputs,
        call_handler func (ArgClient client :: args) kwargs
        = Block self graph py_inputs k →
        for_each convert_input py_inputs ∅ = Ok inputs →
        RequestSent
          (mkChannel (S (S (next_id w))) (_host (_channel self))
                     (_port (_channel self)))
          ∅
          (ReqRunTask (graph_to_proto graph)
             (mkStructValueProto (to_proto_dict inputs)))
        ∈ sent.
Proof.
  intros Hwrap Hcb Halloc channel client.
  rewrite (with_runtime_client_Ok _ _ _ Hwrap).
  rewrite (wrapped_func_eq worker func args kwargs w host port Hcb).
  fold channel. fold client.
  set (injector :=
    match keyring w !! (_KEYRING_SERVICE, "token"),
          keyring w !! (_KEYRING_SERVICE, "key") with
    | Some t, Some k => [(chan_id channel, _gen_auth_injector t k)]
    | _, _ => []
    end).
  assert (Forall (λ entry : nat * Hook, entry.1 = chan_id channel) injector)
    as Hinj.
  { subst injector.
    destruct (keyring w !! (_KEYRING_SERVICE, "token")),
             (keyring w !! (_KEYRING_SERVICE, "key")); by repeat constructor. }
  set (w_start := mkWorld _ _ _ _ _ _).
  assert (∀ ch, (chan_id channel < chan_id ch)%nat →
            stamped_metadata (listeners w_start) ch = ∅) as Hnone.
  { intros ch Hlater. apply stamped_metadata_none. simpl.
    apply Forall_app. split.
    - apply Forall_forall. intros entry He. specialize (Halloc entry He).
      simpl in Hlater. lia.
    - eapply Forall_impl; [exact Hinj|]. intros entry He. simpl in *. lia. }
  destruct (run_coroutine_traffic
              (call_handler func (ArgClient client :: args) kwargs) w_start)
    as (sent & Hev & Hsent & _).
  exists sent. simpl. split; [|split].
  - rewrite Hev. simpl. by rewrite <- !app_assoc.
  - intros ch md req Hin Hlater.
    rewrite Forall_forall in Hsent. specialize (Hsent _ Hin). simpl in Hsent.
    subst md. by apply Hnone.
  - intros self graph py_inputs k inputs Hblock Hconv.
    rewrite Hblock in Hev. simpl in Hev.
    rewrite run_graph_block_eq in Hev. simpl in Hev.
    set (channel' := mkChannel (S (S (next_id w))) _ _) in *.
    set (client' := mkRuntimeClient _ channel') in *.
    set (w_start' := mkWorld _ _ _ _ _ _) in Hev.
    assert (own_cache client' w_start') as Hown.
    { intros key stub. unfold _stubs. simpl. rewrite lookup_insert_eq. simpl.
      by rewrite lookup_empty. }
    destruct (run_graph_first_request client' graph py_inputs inputs w_start'
                Hown Hconv) as [rest Hrest].
    unfold request_event in Hrest.
    change (listeners w_start') with (listeners w_start) in Hrest.
    change (_channel client') with channel' in Hrest.
    rewrite (Hnone channel') in Hrest by (simpl; lia).
    set (ran := run_graph client' graph py_inputs w_start') in *.
    destruct (run_coroutine_traffic (k ran.1)
                (set_events (λ evs, evs ++ [ChannelClosed channel']) ran.2))
      as (more & Hmore & _).
    rewrite Hmore in Hev. simpl in Hev. rewrite Hrest in Hev. simpl in Hev.
    rewrite <- !app_assoc in Hev. apply app_inv_head in Hev.
    simpl in Hev. injection Hev as <-.
    apply elem_of_cons. right. apply elem_of_cons. by left.
Qed.

End BridgeAndAuthenticator.

(** X17: The message of [RuntimeHTTPError] tells apart errors that differ in
    one field: with the other two fields equal, equal messages mean an
    equal endpoint, an equal status code, an equal content. *)
Theorem RuntimeHTTPError_str_distinguishes :
  (∀ endpoint content c1 c2,
     RuntimeHTTPError_str endpoint c1 content
     = RuntimeHTTPError_str endpoint c2 content → c1 = c2)
  ∧ (∀ endpoint code t1 t2,
       RuntimeHTTPError_str endpoint code t1
       = RuntimeHTTPError_str endpoint code t2 → t1 = t2)
  ∧ (∀ e1 e2 code content,
       RuntimeHTTPError_str e1 code content
       = RuntimeHTTPError_str e2 code content → e1 = e2).
Proof.
  unfold RuntimeHTTPError_str. split; [|split].
  - intros endpoint content c1 c2 H.
    do 4 apply string_app_inv_head in H.
    apply py_int_str_inj. by apply string_app_inv_tail in H.
  - intros endpoint code t1 t2 H.
    do 6 apply string_app_inv_head in H. by apply string_app_inv_tail in H.
  - intros e1 e2 code content H.
    apply string_app_inv_head in H. by apply string_app_inv_tail in H.
Qed.

(** * The pytket worker *)
Section WorkerProperties.

Import PytketWorker.
Context {numerics : Numerics}.

Lemma int_of_char_bit c :
  int_digit c = Some 0 ∨ int_digit c = Some 1 →
  int_of_char c = inr (if decide (int_digit c = Some 1) then 1 else 0).
Proof.
  unfold int_of_char. intros [H | H]; rewrite H; by case_decide.
Qed.

Lemma ones_cons c rest :
  Z.of_nat (ones (c :: rest))
  = (if decide (int_digit c = Some 1) then 1 else 0) + Z.of_nat (ones rest).
Proof.
  unfold ones. rewrite filter_cons. case_decide; simpl; lia.
Qed.

Lemma xor_digits_bits acc state :
  is_bitstring state → acc = 0 ∨ acc = 1 →
  xor_digits acc state = inr ((acc + Z.of_nat (ones state)) `mod` 2).
Proof.
  unfold is_bitstring. revert acc.
  induction state as [|c rest IH]; intros acc Hbits Hacc.
  - simpl. destruct Hacc as [-> | ->]; done.
  - apply Forall_cons in Hbits as [Hc Hrest].
    cbn [xor_digits]. rewrite (int_of_char_bit c Hc), ones_cons.
    rewrite IH; [|done|case_decide; destruct Hacc as [-> | ->]; auto].
    f_equal. set (n := Z.of_nat (ones rest)).
    case_decide; destruct Hacc as [-> | ->]; cbn [Z.lxor Pos.lxor].
    + done.
    + replace (1 + (1 + n)) with (n + 1 * 2) by lia.
      by rewrite Z.mod_add.
    + done.
    + done.
Qed.

(** X18: On a non-empty state of binary digits, characters that [int]
    takes to 0 or to 1, the reduction is the parity of the number of
    ones: 0 when it is even, 1 when it is odd. *)
Theorem reduce_xor_is_parity (state : list char) :
  state ≠ [] → is_bitstring state →
  reduce_xor state = inr (Z.of_nat (ones state) `mod` 2).
Proof.
  intros Hne Hbits. destruct state as [|c rest]; [done|].
  unfold is_bitstring in Hbits.
  apply Forall_cons in Hbits as [Hc Hrest].
  unfold reduce_xor. rewrite (int_of_char_bit c Hc), ones_cons.
  apply xor_digits_bits; [done|]. case_decide; auto.
Qed.

Lemma xor_digits_cases acc state :
  match xor_digits acc state with
  | inr _ => is_digits state
  | inl e => (∃ msg, e = ValueError msg) ∧ ¬ is_digits state
  end.
Proof.
  unfold is_digits. revert acc.
  induction state as [|c rest IH]; intros acc; simpl; [constructor|].
  unfold int_of_char. destruct (int_digit c) as [d|] eqn:Hd.
  - specialize (IH (Z.lxor acc d)).
    destruct (xor_digits _ rest) as [e|r].
    + destruct IH as [Hmsg Hbad]. split; [done|].
      intros H. apply Forall_cons in H as [_ H]. by apply Hbad.
    + apply Forall_cons. split; [by rewrite Hd|done].
  - split; [eauto|]. intros H. apply Forall_cons in H as [[? H] _]. congruence.
Qed.

Lemma reduce_xor_cases state :
  match reduce_xor state with
  | inr _ => state ≠ [] ∧ is_digits state
  | inl e =>
      (state = [] ∧ ∃ msg, e = TypeError msg)
      ∨ (state ≠ [] ∧ ¬ is_digits state ∧ ∃ msg, e = ValueError msg)
  end.
Proof.
  destruct state as [|c rest]; simpl; [left; eauto|].
  unfold int_of_char. destruct (int_digit c) as [d|] eqn:Hd.
  - pose proof (xor_digits_cases d rest) as H.
    destruct (xor_digits _ rest) as [e|r].
    + right. destruct H as [Hmsg Hbad]. split; [done|]. split; [|done].
      unfold is_digits.
      intros Hall. apply Forall_cons in Hall as [_ Hall]. by apply Hbad.
    + split; [done|]. unfold is_digits. apply Forall_cons.
      split; [by rewrite Hd|done].
  - right. split; [done|]. split; [|eauto]. unfold is_digits. intros Hall.
    apply Forall_cons in Hall as [[? H] _]. congruence.
Qed.

(** X19: [z_expectation] returns a number exactly when every state of the
    distribution is non-empty and made of characters [int] accepts;
    otherwise it raises, and the first state in iteration order that is
    empty or holds a character [int] rejects decides how: [TypeError]
    of the reduction when it is empty, [ValueError] of [int] when it is
    not. *)
Theorem z_expectation_defined (pure_dist : list (list char * float)) :
  match z_expectation pure_dist with
  | inr _ => Forall (λ item, item.1 ≠ [] ∧ is_digits item.1) pure_dist
  | inl e =>
      ∃ pre state val post,
        pure_dist = pre ++ (state, val) :: post
        ∧ Forall (λ item, item.1 ≠ [] ∧ is_digits item.1) pre
        ∧ ((state = [] ∧ ∃ msg, e = TypeError msg)
           ∨ (state ≠ [] ∧ ¬ is_digits state ∧ ∃ msg, e = ValueError msg))
  end.
Proof.
  unfold z_expectation.
  assert (∀ acc, match sum_terms acc pure_dist with
                 | inr _ => Forall (λ item, item.1 ≠ [] ∧ is_digits item.1) pure_dist
                 | inl e =>
                     ∃ pre state val post,
                       pure_dist = pre ++ (state, val) :: post
                       ∧ Forall (λ item, item.1 ≠ [] ∧ is_digits item.1) pre
                       ∧ ((state = [] ∧ ∃ msg, e = TypeError msg)
                          ∨ (state ≠ [] ∧ ¬ is_digits state
                             ∧ ∃ msg, e = ValueError msg))
                 end) as H.
  { induction pure_dist as [|[state val] rest IH]; intros acc; simpl.
    - constructor.
    - pose proof (reduce_xor_cases state) as Hs.
      destruct (reduce_xor state) as [e|parity].
      + by exists [], state, val, rest.
      + specialize (IH (add acc (mul (Int parity) (Float val)))).
        destruct (sum_terms _ rest) as [e|r].
        * destruct IH as (pre & state' & val' & post & -> & Hpre & Hbad).
          exists ((state, val) :: pre), state', val', post.
          split; [done|]. split; [by apply Forall_cons|done].
        * by apply Forall_cons. }
  specialize (H (Int 0)). by destruct (sum_terms (Int 0) pure_dist).
Qed.

Lemma symbol_map_lookup_gen (m : gmap string float) items s :
  foldl (λ m (item : string * float), <[item.1 := item.2]> m) m items !! s
  = match last (filter (λ item, item.1 = s) items) with
    | Some item => Some item.2
    | None => m !! s
    end.
Proof.
  revert m. induction items as [|item rest IH] using rev_ind; intros m; [done|].
  rewrite foldl_app, filter_app. simpl.
  destruct (decide (item.1 = s)) as [<-|Hne].
  - rewrite filter_cons_True by done. rewrite filter_nil, last_snoc.
    apply lookup_insert_eq.
  - rewrite filter_cons_False by done. rewrite filter_nil, app_nil_r.
    rewrite lookup_insert_ne by done. apply IH.
Qed.

Lemma zip_surplus_r {A B} (l : list A) (k surplus : list B) :
  (length l ≤ length k)%nat → zip l (k ++ surplus) = zip l k.
Proof.
  revert k. induction l as [|x l IH]; intros [|y k] Hle; simpl in *;
    try done; try lia.
  f_equal. apply IH. lia.
Qed.

Lemma zip_surplus_l {A B} (l surplus : list A) (k : list B) :
  (length k ≤ length l)%nat → zip (l ++ surplus) k = zip l k.
Proof.
  revert k. induction l as [|x l IH]; intros [|y k] Hle; simpl in *;
    try done; try lia.
  - by destruct surplus.
  - f_equal. apply IH. lia.
Qed.

(** X20: The substitution pairs symbols and parameters by position and stops
    at the shorter list: a symbol is bound to the parameter of its last
    paired occurrence, a symbol that is not paired is not bound, and
    surplus parameters or symbols change nothing in what
    [substitute_symbols] returns. *)
Theorem substitute_symbols_pairs_by_position (circ : CircStruct)
    (symbs : list string) (params : list float) :
  (∀ s, symbol_map symbs params !! s
        = snd <$> last (filter (λ item, item.1 = s) (zip symbs params)))
  ∧ (∀ surplus, (length symbs ≤ length params)%nat →
       substitute_symbols circ symbs (params ++ surplus)
       = substitute_symbols circ symbs params)
  ∧ (∀ surplus, (length params ≤ length symbs)%nat →
       substitute_symbols circ (symbs ++ surplus) params
       = substitute_symbols circ symbs params).
Proof.
  split; [|split].
  - intros s. unfold symbol_map. rewrite symbol_map_lookup_gen.
    by destruct (last _).
  - intros surplus Hle. unfold substitute_symbols, symbol_map.
    by rewrite zip_surplus_r.
  - intros surplus Hle. unfold substitute_symbols, symbol_map.
    by rewrite zip_surplus_l.
Qed.

End WorkerProperties.

(** * The theorems at work on the sample instantiation *)

Import Sample.
#[local] Existing Instance Sample.collab.

(** The split at work: one separator cuts the name, none or two raise. *)
Example split_name_qualified : split_name "qubit/h" = Ok ("qubit", "h").
Proof. reflexivity. Qed.

Example split_name_unqualified :
  split_name "h"
  = Err (ValueError "not enough values to unpack (expected 2, got 1)").
Proof. reflexivity. Qed.

Example split_name_nested :
  split_name "a/b/c" = Err (ValueError "too many values to unpack (expected 2)").
Proof. reflexivity. Qed.

Example str_split_keeps_rest : str_split slash 2 "a/b/c/d" = ["a"; "b"; "c/d"].
Proof. reflexivity. Qed.

Lemma start_task_unconvertible_witness :
  start_task client ()
    [("angle", NInt 15); ("socket", NSocket); ("label", NText "x")]
    (world ∅ (server_listing []))
  = (Err (InputConversionError "socket" NSocket), world ∅ (server_listing [])).
Proof.
  apply (start_task_unconvertible (collab := Sample.collab) client () [("angle", NInt 15)]
           [("label", NText "x")] "socket" NSocket).
  - repeat constructor. by eexists.
  - reflexivity.
Defined.

Lemma start_task_response_witness :
  (start_task client () [("angle", NInt 15)] (world ∅ (server_listing []))).1
  = Ok (mkTaskHandle "task-1")
  ∧ (start_task client () [("angle", NInt 15)] (world ∅ server_rejecting)).1
    = Err (TierkreisTypeErrors ["port angle: Float expected"]).
Proof.
  split.
  - pose proof (start_task_response (collab := Sample.collab) client ()
                  [("angle", NInt 15)] _ _ _ (world ∅ (server_listing [])) _ _
                  eq_refl eq_refl eq_refl) as (_ & H & _).
    by rewrite (H "task-1" eq_refl).
  - pose proof (start_task_response (collab := Sample.collab) client ()
                  [("angle", NInt 15)] _ _ _ (world ∅ server_rejecting) _ _
                  eq_refl eq_refl eq_refl) as (_ & _ & H & _).
    by rewrite (H ["port angle: Float expected"] eq_refl).
Defined.


Lemma list_tasks_default_running_witness :
  ∃ result w',
    list_tasks client (world ∅ (server_listing distinct_tasks)) = (Ok result, w')
    ∧ result !! mkTaskHandle "a" = Some "running".
Proof.
  destruct (list_tasks_default_running (collab := Sample.collab) client _ _
              (world ∅ (server_listing distinct_tasks)) _ _
              [] (drop 1 distinct_tasks) (mkTask "a" StatusUnset)
              eq_refl eq_refl eq_refl eq_refl) as (result & Hrun & Hlabel & _).
  - repeat constructor. discriminate.
  - eauto.
Defined.

(** C1, as stated, fails when a task id is listed twice: the first entry
    has no status, yet its handle is mapped to the label of the second. *)
Lemma list_tasks_repeated_id_counterexample :
  ¬ (∀ t result w',
       t ∈ repeated_tasks → (which_one_of_status t).1 = "" →
       list_tasks client (world ∅ (server_listing repeated_tasks)) = (Ok result, w') →
       result !! mkTaskHandle (id t) = Some "running").
Proof.
  intros H.
  specialize (H (mkTask "t" StatusUnset) _ _ ltac:(by left) eq_refl eq_refl).
  vm_compute in H. discriminate H.
Qed.

Lemma signature_from_proto_merges_witness :
  ∃ sig, signature_from_proto qubit_signature = Ok sig
    ∧ merged qubit_signature sig
    ∧ signature_from_proto qubit_signature_reordered = Ok sig.
Proof.
  destruct (signature_from_proto_merges (collab := Sample.collab) qubit_signature)
    as (sig & Hsig & Hmerged & Horder).
  - repeat constructor.
  - apply (bool_decide_unpack _). by vm_compute.
  - apply (bool_decide_unpack _). by vm_compute.
  - exists sig. split; [done|]. split; [done|].
    apply Horder; [apply perm_swap|done].
Defined.

(** C5, as stated for every response, fails on a name without a
    separator: no registry is produced at all. *)
Lemma signature_from_proto_unqualified_counterexample :
  ¬ ∃ sig, signature_from_proto unqualified_signature = Ok sig
           ∧ merged unqualified_signature sig.
Proof. intros (sig & H & _). vm_compute in H. discriminate H. Qed.

Lemma wrapped_call_without_callback_witness :
  wrapped_func worker_idle submit [] [] (world credentials (server_listing []))
  = (Err (RuntimeError "Callback address has not been extracted from request."),
     world credentials (server_listing [])).
Proof.
  apply (wrapped_call_without_callback (collab := Sample.collab)
           worker_idle submit); reflexivity.
Defined.

Lemma stub_cache_insert_if_absent_witness :
  (_stub_gen client "runtime" RuntimeStub (world ∅ (server_listing []))).1
  = Ok (mkStub 2 RuntimeStub channel)
  ∧ ∀ w2,
      later_world (_stub_gen client "runtime" RuntimeStub
                     (world ∅ (server_listing []))).2 w2 →
      _stub_gen client "runtime" RuntimeStub w2
      = (Ok (mkStub 2 RuntimeStub channel), w2).
Proof.
  destruct (stub_cache_insert_if_absent (collab := Sample.collab) client "runtime"
              RuntimeStub (world ∅ (server_listing [])) eq_refl)
    as (Hfirst & _ & Hlater & _).
  split; [exact Hfirst|exact Hlater].
Defined.

Lemma wrapped_call_authenticates_witness :
  let w := world credentials (server_listing []) in
  let channel := mkChannel 2 "localhost" 8080 in
  let client := mkRuntimeClient 3 channel in
  ∃ w_start w_end sent,
    listeners w_start = [(2%nat, _gen_auth_injector "alice" "s3cret")]
    ∧ wrapped_func worker_ready submit [] [] w
      = ((run_coroutine (call_handler submit [ArgClient client] []) w_start).1,
         set_events (λ evs, evs ++ [ChannelClosed channel]) w_end)
    ∧ events w_end = events w_start ++ sent
    ∧ ∀ ch md req, RequestSent ch md req ∈ sent → chan_id ch = 2%nat →
        md !! "token" = Some "alice" ∧ md !! "key" = Some "s3cret".
Proof.
  intros w channel client.
  destruct (wrapped_call_authenticates (collab := Sample.collab) worker_ready
              submit (wrapped_func worker_ready submit) [] [] w "localhost" 8080
              eq_refl eq_refl)
    as (w_start & w_end & sent & _ & Hls & _ & Hcall & _ & Hev & _ & Hstamp).
  exists w_start, w_end, sent.
  split; [exact Hls|]. split; [exact Hcall|]. split; [exact Hev|].
  exact (Hstamp "alice" "s3cret" eq_refl eq_refl).
Defined.

(** The same call, run: the one request the handler sends carries both
    fields. *)
Example wrapped_call_run :
  let out :=
    wrapped_func worker_ready submit [] [] (world credentials (server_listing [])) in
  out.1 = Ok (NText "task-1")
  ∧ events out.2
    = [ChannelOpened (mkChannel 2 "localhost" 8080);
       RequestSent (mkChannel 2 "localhost" 8080)
         {["token" := "alice"; "key" := "s3cret"]}
         (ReqRunTask () (mkStructValueProto {["angle" := VInt 15]}));
       ChannelClosed (mkChannel 2 "localhost" 8080)].
Proof. split; vm_compute; reflexivity. Qed.

(** Without credentials the same call goes through unstamped. *)
Example wrapped_call_run_no_credentials :
  let out :=
    wrapped_func worker_ready submit [] [] (world ∅ (server_listing [])) in
  out.1 = Ok (NText "task-1")
  ∧ listeners out.2 = []
  ∧ events out.2
    = [ChannelOpened (mkChannel 2 "localhost" 8080);
       RequestSent (mkChannel 2 "localhost" 8080) ∅
         (ReqRunTask () (mkStructValueProto {["angle" := VInt 15]}));
       ChannelClosed (mkChannel 2 "localhost" 8080)].
Proof. repeat split; vm_compute; reflexivity. Qed.

(** ** The further properties on the sample instantiation *)

Lemma sample_own_cache keys srv : own_cache client (world keys srv).
Proof. intros key stub H. by vm_compute in H. Qed.

Lemma socket_address_inj_witness :
  _host (_channel client) = _host (_channel other_client)
  ∧ _port (_channel client) = _port (_channel other_client).
Proof. apply (socket_address_inj client other_client); reflexivity. Defined.

Lemma signature_keys_hold_no_separator_witness :
  let defs := mkNamespaceDefs {["h" := "H"; "x" := "X"]} {["QubitAlias" := "Qubit"]} in
  str_count slash "qubit" = O
  ∧ (∀ f, is_Some (functions defs !! f) → str_count slash f = O)
  ∧ (∀ a, is_Some (aliases defs !! a) → str_count slash a = O).
Proof.
  exact (signature_keys_hold_no_separator (collab := Sample.collab) qubit_signature
           _ eq_refl "qubit" _ eq_refl).
Defined.

Lemma signature_first_bad_name_witness :
  signature_from_proto nested_signature
  = Err (ValueError "too many values to unpack (expected 2)")
  ∧ signature_from_proto unqualified_signature
    = Err (ValueError "not enough values to unpack (expected 2, got 1)").
Proof.
  split.
  - apply (signature_first_bad_name (collab := Sample.collab) nested_signature
             ["qubit/h"] ["solo"] "a/b/c").
    + reflexivity.
    + repeat constructor.
    + discriminate.
  - apply (signature_first_bad_name (collab := Sample.collab)
             unqualified_signature [] [] "h").
    + reflexivity.
    + constructor.
    + discriminate.
Defined.

Lemma list_tasks_last_entry_wins_witness :
  ∃ result,
    (list_tasks client (world ∅ (server_listing repeated_tasks))).1 = Ok result
    ∧ ∀ handle, result !! handle
        = status_label <$> last (filter (λ t, id t = task_id handle) repeated_tasks).
Proof.
  destruct (list_tasks_last_entry_wins (collab := Sample.collab) client _ _
              (world ∅ (server_listing repeated_tasks)) _ _ eq_refl eq_refl)
    as (result & Hrun & Hlabels).
  exists result. split; [by rewrite Hrun|exact Hlabels].
Defined.

Lemma stub_properties_succeed_witness :
  ∃ stub w1,
    _runtime_stub client (world ∅ (server_listing [])) = (Ok stub, w1)
    ∧ stub_class stub = RuntimeStub ∧ stub_channel stub = _channel client
    ∧ _stubs client w1 !! "runtime" = Some stub.
Proof.
  exact (proj1 (proj2 (stub_properties_succeed (collab := Sample.collab) client
                         (world ∅ (server_listing []))
                         (sample_own_cache ∅ (server_listing []))))).
Defined.

Lemma delete_task_sends_one_request_witness :
  ∃ w1, same_but_caches (world credentials (server_listing [])) w1
    ∧ delete_task client (mkTaskHandle "task-1") (world credentials (server_listing []))
      = (Ok (),
         set_events
           (λ evs, evs ++ [RequestSent channel ∅ (ReqDeleteTask "task-1")]) w1).
Proof.
  exact (delete_task_sends_one_request (collab := Sample.collab) client
           (mkTaskHandle "task-1") (world credentials (server_listing []))
           (sample_own_cache _ _)).
Defined.

Lemma get_signature_parses_reply_witness :
  ∃ w1, same_but_caches (world ∅ (server_listing [])) w1
    ∧ get_signature client (world ∅ (server_listing []))
      = (Ok ∅, set_events (λ evs, evs ++ [RequestSent channel ∅ ReqListFunctions]) w1).
Proof.
  exact (get_signature_parses_reply (collab := Sample.collab) client
           (world ∅ (server_listing [])) (sample_own_cache _ _)).
Defined.

Lemma start_task_sends_inputs_witness :
  ∃ inputs w1,
    (∀ key v, inputs !! key = Some v ↔
       ∃ o, (key, o) ∈ [("angle", NInt 15); ("label", NText "x")]
            ∧ convert o = Some v)
    ∧ same_but_caches (world ∅ (server_listing [])) w1
    ∧ (start_task client () [("angle", NInt 15); ("label", NText "x")]
         (world ∅ (server_listing []))).2
      = set_events
          (λ evs, evs ++ [RequestSent channel ∅
                            (ReqRunTask () (mkStructValueProto inputs))]) w1.
Proof.
  destruct (start_task_sends_inputs (collab := Sample.collab) client ()
              [("angle", NInt 15); ("label", NText "x")]
              (world ∅ (server_listing [])) (sample_own_cache _ _))
    as (inputs & w1 & Hlook & Hsame & Hsent & _).
  - repeat constructor; by eexists.
  - apply (bool_decide_unpack _). by vm_compute.
  - by exists inputs, w1.
Defined.

Lemma run_graph_awaits_issued_task_witness :
  events (run_graph client () [("angle", NInt 15)] (world ∅ (server_listing []))).2
  = [RequestSent channel ∅
       (ReqRunTask () (mkStructValueProto {["angle" := VInt 15]}));
     RequestSent channel ∅ (ReqAwaitTask "task-1")]
  ∧ (run_graph client () [("angle", NInt 15)] (world ∅ (server_listing []))).1
    = Ok {["result" := VInt 3]}.
Proof.
  destruct (run_graph_awaits_issued_task (collab := Sample.collab) client ()
              [("angle", NInt 15)] {["angle" := VInt 15]} "task-1"
              (world ∅ (server_listing [])) (sample_own_cache _ _)
              eq_refl eq_refl) as (Hev & Hok & _).
  split; [exact Hev|].
  exact (Hok "task-1" (mkStructValueProto {["result" := VInt 3]}) eq_refl).
Defined.

Lemma run_graph_rejected_sends_no_await_witness :
  events (run_graph client () [("angle", NInt 15)] (world ∅ server_rejecting)).2
  = [RequestSent channel ∅
       (ReqRunTask () (mkStructValueProto {["angle" := VInt 15]}))]
  ∧ ∃ e, (run_graph client () [("angle", NInt 15)] (world ∅ server_rejecting)).1
         = Err e.
Proof.
  destruct (run_graph_rejected_sends_no_await (collab := Sample.collab) client ()
              [("angle", NInt 15)] {["angle" := VInt 15]}
              (world ∅ server_rejecting) (sample_own_cache _ _) eq_refl)
    as (Hev & e & He & _).
  - intros tid. discriminate.
  - split; [exact Hev|]. by exists e.
Defined.


Lemma reduce_xor_is_parity_witness :
  PytketWorker.reduce_xor (numerics := exact_numerics)
    (list_ascii_of_string "0110100") = inr 1.
Proof.
  apply (reduce_xor_is_parity (numerics := exact_numerics)
           (list_ascii_of_string "0110100")); [discriminate|].
  unfold PytketWorker.is_bitstring. simpl.
  repeat (constructor; [auto|]). constructor.
Defined.

Lemma type_check_graph_response_witness :
  (type_check_graph client () (world ∅ (server_listing []))).1 = Ok ()
  ∧ (type_check_graph client () (world ∅ server_rejecting)).1
    = Err (TierkreisTypeErrors ["port angle: Float expected"]).
Proof.
  split.
  - destruct (type_check_graph_response (collab := Sample.collab) client ()
                (world ∅ (server_listing [])) (sample_own_cache _ _))
      as [_ H].
    destruct (H VGraph eq_refl) as (_ & _ & _ & _ & Hok).
    exact (Hok (mkInferTypeSuccess VGraph) () eq_refl eq_refl eq_refl).
  - destruct (type_check_graph_response (collab := Sample.collab) client ()
                (world ∅ server_rejecting) (sample_own_cache _ _))
      as [_ H].
    destruct (H VGraph eq_refl) as (_ & Herr & _).
    exact (Herr ["port angle: Float expected"] eq_refl).
Defined.

(** A handler that blocks on [run_graph_block], run with both secrets
    stored: its two requests leave over a channel of their own, without
    the credentials. *)
Example wrapped_call_blocking_run :
  let out :=
    wrapped_func worker_ready submit_blocking [] []
      (world credentials (server_listing [])) in
  out.1 = Ok (NInt 1)
  ∧ events out.2
    = [ChannelOpened (mkChannel 2 "localhost" 8080);
       ChannelOpened (mkChannel 4 "localhost" 8080);
       RequestSent (mkChannel 4 "localhost" 8080) ∅
         (ReqRunTask () (mkStructValueProto {["angle" := VInt 15]}));
       RequestSent (mkChannel 4 "localhost" 8080) ∅ (ReqAwaitTask "task-1");
       ChannelClosed (mkChannel 4 "localhost" 8080);
       ChannelClosed (mkChannel 2 "localhost" 8080)].
Proof. split; vm_compute; reflexivity. Qed.

Lemma blocking_call_not_authenticated_witness :
  ∃ sent,
    events (wrapped_func worker_ready submit_blocking [] []
              (world credentials (server_listing []))).2
    = [] ++ [ChannelOpened (mkChannel 2 "localhost" 8080)] ++ sent
      ++ [ChannelClosed (mkChannel 2 "localhost" 8080)]
    ∧ RequestSent (mkChannel 4 "localhost" 8080) ∅
        (ReqRunTask () (mkStructValueProto {["angle" := VInt 15]}))
      ∈ sent.
Proof.
  destruct (blocking_call_not_authenticated (collab := Sample.collab)
              worker_ready submit_blocking
              (wrapped_func worker_ready submit_blocking) [] []
              (world credentials (server_listing [])) "localhost" 8080
              eq_refl eq_refl) as (sent & Hev & _ & Hblock).
  - intros entry He. by apply elem_of_nil in He.
  - exists sent. split; [exact Hev|].
    exact (Hblock _ () [("angle", NInt 15)] _ {["angle" := VInt 15]}
             eq_refl eq_refl).
Defined.
